(** * bevochain: a single-node ledger with a proof-of-work gate

    A shallow embedding of [src/blockchain.py]: the [Blockchain] class
    (chain, pending transactions, block hashing, proof of work) and the
    three request handlers built on its single global instance.

    Python integers are [Z]; Python strings are [string], one character
    per code point below 256; bytes are [Z] in 0..255; 32-bit words are
    [Z] with the wrap-around written out.

    The code renders integers in decimal in three places: the f-string
    of [valid_proof], [json.dumps] in [hash], and [jsonify] in the
    handlers. An interpreter without a limit on that conversion renders
    every integer, and the modules [Py], [Blockchain] and [App] are the
    code on such an interpreter. CPython 3.11 and later refuse by
    default to render an integer of more than 4300 digits and raise
    ValueError; the module [Limited] is the same code under that limit,
    with the error path, and agrees with the others wherever nothing
    is raised. *)

From Stdlib Require Import ZArith Lia Ascii DecimalString.
From Stdlib Require String Decimal DecimalFacts DecimalPos.
From stdpp Require Import base list strings.

Local Open Scope Z_scope.

(** ** hashlib.sha256 (FIPS 180-4) *)

Module SHA256.

Definition two32 : Z := 4294967296.

(** Reduction modulo 2^32, as a mask of the low 32 bits. *)
Definition wrap32 (x : Z) : Z := Z.land x (two32 - 1).
Definition add32 (x y : Z) : Z := wrap32 (x + y).
Definition not32 (x : Z) : Z := Z.lxor x (two32 - 1).
Definition rotr (n x : Z) : Z :=
  Z.lor (Z.shiftr x n) (wrap32 (Z.shiftl x (32 - n))).

Definition ch (x y z : Z) : Z := Z.lxor (Z.land x y) (Z.land (not32 x) z).
Definition maj (x y z : Z) : Z :=
  Z.lxor (Z.lxor (Z.land x y) (Z.land x z)) (Z.land y z).
Definition big_sigma0 (x : Z) : Z :=
  Z.lxor (Z.lxor (rotr 2 x) (rotr 13 x)) (rotr 22 x).
Definition big_sigma1 (x : Z) : Z :=
  Z.lxor (Z.lxor (rotr 6 x) (rotr 11 x)) (rotr 25 x).
Definition small_sigma0 (x : Z) : Z :=
  Z.lxor (Z.lxor (rotr 7 x) (rotr 18 x)) (Z.shiftr x 3).
Definition small_sigma1 (x : Z) : Z :=
  Z.lxor (Z.lxor (rotr 17 x) (rotr 19 x)) (Z.shiftr x 10).

(** Round constants: the first 32 bits of the fractional parts of the
    cube roots of the first 64 primes. *)
Definition round_constants : list Z :=
  [ 1116352408; 1899447441; 3049323471; 3921009573; 961987163; 1508970993;
    2453635748; 2870763221; 3624381080; 310598401; 607225278; 1426881987;
    1925078388; 2162078206; 2614888103; 3248222580; 3835390401; 4022224774;
    264347078; 604807628; 770255983; 1249150122; 1555081692; 1996064986;
    2554220882; 2821834349; 2952996808; 3210313671; 3336571891; 3584528711;
    113926993; 338241895; 666307205; 773529912; 1294757372; 1396182291;
    1695183700; 1986661051; 2177026350; 2456956037; 2730485921; 2820302411;
    3259730800; 3345764771; 3516065817; 3600352804; 4094571909; 275423344;
    430227734; 506948616; 659060556; 883997877; 958139571; 1322822218;
    1537002063; 1747873779; 1955562222; 2024104815; 2227730452; 2361852424;
    2428436474; 2756734187; 3204031479; 3329325298 ].

(** The eight working registers a..h, also the running hash value. *)
Record regs : Type := Regs {
  ra : Z; rb : Z; rc : Z; rd : Z; re : Z; rf : Z; rg : Z; rh : Z
}.

(** Initial hash value: fractional parts of the square roots of the
    first 8 primes. *)
Definition initial_hash : regs :=
  Regs 1779033703 3144134277 1013904242 2773480762
       1359893119 2600822924 528734635 1541459225.

Fixpoint be_bytes (n : nat) (x : Z) : list Z :=
  match n with
  | O => []
  | S n' => Z.shiftr x (8 * Z.of_nat n') mod 256 :: be_bytes n' x
  end.

(** Padding: a 1 bit, zero bits up to 56 mod 64 bytes, then the bit
    length as a 64-bit big-endian integer. *)
Definition pad (msg : list Z) : list Z :=
  let len := Z.of_nat (length msg) in
  msg ++ [128] ++ replicate (Z.to_nat ((55 - len) mod 64)) 0
      ++ be_bytes 8 (8 * len).

Fixpoint be_words (bs : list Z) : list Z :=
  match bs with
  | b0 :: b1 :: b2 :: b3 :: rest =>
      (((b0 * 256 + b1) * 256 + b2) * 256 + b3) :: be_words rest
  | _ => []
  end.

Fixpoint blocks (n : nat) (ws : list Z) : list (list Z) :=
  match n with
  | O => []
  | S n' => take 16 ws :: blocks n' (drop 16 ws)
  end.

(** Message schedule, built newest word first. *)
Fixpoint expand (n : nat) (rw : list Z) : list Z :=
  match n with
  | O => rw
  | S n' =>
      let w := add32 (add32 (small_sigma1 (nth 1 rw 0)) (nth 6 rw 0))
                     (add32 (small_sigma0 (nth 14 rw 0)) (nth 15 rw 0)) in
      expand n' (w :: rw)
  end.

Definition schedule (block : list Z) : list Z :=
  rev (expand 48 (rev block)).

Definition round (s : regs) (kw : Z * Z) : regs :=
  let t1 := add32 (add32 (add32 (add32 (rh s) (big_sigma1 (re s)))
                                (ch (re s) (rf s) (rg s))) (fst kw)) (snd kw) in
  let t2 := add32 (big_sigma0 (ra s)) (maj (ra s) (rb s) (rc s)) in
  Regs (add32 t1 t2) (ra s) (rb s) (rc s) (add32 (rd s) t1) (re s) (rf s) (rg s).

Definition compress (h : regs) (block : list Z) : regs :=
  let s := fold_left round (combine round_constants (schedule block)) h in
  Regs (add32 (ra h) (ra s)) (add32 (rb h) (rb s))
       (add32 (rc h) (rc s)) (add32 (rd h) (rd s))
       (add32 (re h) (re s)) (add32 (rf h) (rf s))
       (add32 (rg h) (rg s)) (add32 (rh h) (rh s)).

Definition digest (msg : list Z) : regs :=
  let ws := be_words (pad msg) in
  fold_left compress (blocks (length ws / 16) ws) initial_hash.

Definition hex_digit (d : Z) : ascii :=
  match d with
  | 0 => "0" | 1 => "1" | 2 => "2" | 3 => "3" | 4 => "4" | 5 => "5"
  | 6 => "6" | 7 => "7" | 8 => "8" | 9 => "9" | 10 => "a" | 11 => "b"
  | 12 => "c" | 13 => "d" | 14 => "e" | _ => "f"
  end%char.

Fixpoint hex_digits (n : nat) (x : Z) (tail : string) : string :=
  match n with
  | O => tail
  | S n' => String (hex_digit (Z.shiftr x (4 * Z.of_nat n') mod 16))
                   (hex_digits n' x tail)
  end.

(** [hashlib.sha256(msg).hexdigest()]: 64 lowercase hex characters. *)
Definition hexdigest (msg : list Z) : string :=
  let h := digest msg in
  hex_digits 8 (ra h) (hex_digits 8 (rb h) (hex_digits 8 (rc h)
    (hex_digits 8 (rd h) (hex_digits 8 (re h) (hex_digits 8 (rf h)
      (hex_digits 8 (rg h) (hex_digits 8 (rh h) EmptyString))))))).

End SHA256.

(** ** Python values *)

Module Py.

(** Exceptions the modelled code can raise. *)
Inductive exn : Type := IndexError | KeyError | TypeError | ValueError.

(** The outcome of evaluating an expression: a value or a raised
    exception. *)
Inductive outcome (A : Type) : Type :=
| Return (a : A)
| Raise (e : exn).
Arguments Return {A} a.
Arguments Raise {A} e.

(** [str.encode()]: UTF-8, for code points below 256. *)
Definition encode_char (c : ascii) : list Z :=
  let n := Z.of_N (N_of_ascii c) in
  if n <? 128 then [n] else [192 + n / 64; 128 + n mod 64].

Fixpoint encode (s : string) : list Z :=
  match s with
  | EmptyString => []
  | String c s' => encode_char c ++ encode s'
  end.

(** [str(n)] and the f-string field [{n}] for an integer [n], where
    the interpreter puts no limit on the conversion; [Limited.str] is
    the conversion under the default limit. *)
Definition str_int (n : Z) : string := NilZero.string_of_int (Z.to_int n).

(** [s[:n]] *)
Definition slice_to (n : nat) (s : string) : string := String.substring 0 n s.

(** [sep.join(parts)] *)
Fixpoint join (sep : string) (parts : list string) : string :=
  match parts with
  | [] => EmptyString
  | [p] => p
  | p :: rest => p +:+ sep +:+ join sep rest
  end.

(** [k in s] for two strings: [k] occurs in [s] as a substring. *)
Fixpoint str_contains (k s : string) : bool :=
  if String.prefix k s then true
  else match s with
       | EmptyString => false
       | String _ s' => str_contains k s'
       end.

(** [d[k]] and [k in d] on a dict kept as its list of items (keys are
    distinct, as in any Python dict). *)
Fixpoint assoc {A : Type} (k : string) (d : list (string * A)) : option A :=
  match d with
  | [] => None
  | (k', v) :: d' => if String.eqb k k' then Some v else assoc k d'
  end.

(** [sorted(d.items())]: insertion sort on the keys, by code point. *)
Fixpoint insert_item {A : Type} (kv : string * A) (d : list (string * A))
  : list (string * A) :=
  match d with
  | [] => [kv]
  | kv' :: d' =>
      if String.leb (fst kv) (fst kv') then kv :: d
      else kv' :: insert_item kv d'
  end.

Definition sort_items {A : Type} (d : list (string * A)) : list (string * A) :=
  foldr insert_item [] d.

#[local] Set Warnings "-register-all".

Section Values.
(** Python floats are only stored and serialised here, so their
    type and [json]'s rendering of them stay abstract. *)
Context {float : Type}.
Variable json_float : float -> string.

(** The values [request.get_json()] can return, which are also the
    values [json.dumps] serialises. *)
Inductive val : Type :=
| VNone
| VBool (b : bool)
| VInt (n : Z)
| VFloat (x : float)
| VStr (s : string)
| VList (l : list val)
| VDict (d : list (string * val)).

(** [k in v] for a string [k]. *)
Definition contains (k : string) (v : val) : outcome bool :=
  match v with
  | VDict d => Return (bool_decide (is_Some (assoc k d)))
  | VList l =>
      Return (existsb (fun x => match x with
                                | VStr s => String.eqb k s
                                | _ => false
                                end) l)
  | VStr s => Return (str_contains k s)
  | VNone | VBool _ | VInt _ | VFloat _ => Raise TypeError
  end.

(** [v[k]] for a string [k]. *)
Definition subscript (v : val) (k : string) : outcome val :=
  match v with
  | VDict d => match assoc k d with
               | Some x => Return x
               | None => Raise KeyError
               end
  | _ => Raise TypeError
  end.

(** [all(k in v for k in ks)]: stops at the first [False]. *)
Fixpoint all_in (ks : list string) (v : val) : outcome bool :=
  match ks with
  | [] => Return true
  | k :: ks' =>
      match contains k v with
      | Return true => all_in ks' v
      | Return false => Return false
      | Raise e => Raise e
      end
  end.

(** *** json.dumps(v, sort_keys=True) *)

Definition quote : ascii := ascii_of_nat 34.
Definition backslash : ascii := ascii_of_nat 92.

Definition escape2 (c : ascii) : string := String backslash (String c EmptyString).

(** Characters outside space..tilde, the quote and the backslash are
    escaped ([ensure_ascii] is on by default). *)
Definition json_escape (c : ascii) : string :=
  let n := Z.of_N (N_of_ascii c) in
  if n =? 34 then escape2 quote
  else if n =? 92 then escape2 backslash
  else if n =? 10 then escape2 "n"
  else if n =? 13 then escape2 "r"
  else if n =? 9 then escape2 "t"
  else if n =? 12 then escape2 "f"
  else if n =? 8 then escape2 "b"
  else if (32 <=? n) && (n <=? 126) then String c EmptyString
  else String backslash (String "u" (SHA256.hex_digits 4 n EmptyString)).

Fixpoint json_escape_all (s : string) : string :=
  match s with
  | EmptyString => EmptyString
  | String c s' => json_escape c +:+ json_escape_all s'
  end.

Definition json_str (s : string) : string :=
  String quote (json_escape_all s +:+ String quote EmptyString).

Definition json_item (kv : string * string) : string :=
  json_str (fst kv) +:+ ": " +:+ snd kv.

Fixpoint json_dumps (v : val) : string :=
  match v with
  | VNone => "null"
  | VBool true => "true"
  | VBool false => "false"
  | VInt n => str_int n
  | VFloat x => json_float x
  | VStr s => json_str s
  | VList l => "[" +:+ join ", " (map json_dumps l) +:+ "]"
  | VDict d =>
      "{" +:+ join ", " (map json_item
                (sort_items (map (fun kv => (fst kv, json_dumps (snd kv))) d)))
          +:+ "}"
  end.

End Values.
Arguments val : clear implicits.

End Py.

(** ** The Blockchain class *)

Module Blockchain.
Import Py.

(** *** Proof of work (static: no ledger state involved) *)

(** [Blockchain.valid_proof], where both integers render;
    [Limited.valid_proof] has the error path. *)
Definition valid_proof (last_proof proof : Z) : bool :=
  let guess := encode (str_int last_proof +:+ str_int proof) in
  let guess_hash := SHA256.hexdigest guess in
  String.eqb (slice_to 2 guess_hash) "00".

(** [Blockchain.proof_of_work]: the [while] loop run for at most
    [fuel] tests, from the candidate [proof]; [None] when the loop is
    still running after that many tests. *)
Fixpoint proof_of_work_loop (fuel : nat) (last_proof proof : Z) : option Z :=
  match fuel with
  | O => None
  | S fuel' =>
      if valid_proof last_proof proof then Some proof
      else proof_of_work_loop fuel' last_proof (proof + 1)
  end.

Definition proof_of_work (fuel : nat) (last_proof : Z) : option Z :=
  proof_of_work_loop fuel last_proof 0.

Section Ledger.
Context {float : Type}.
Variable json_float : float -> string.

(** A transaction dict: the three values are stored as given. *)
Record Transaction : Type := {
  sender : val float;
  recipient : val float;
  amount : val float
}.

(** A block dict. [previous_hash] is a digest string for mined
    blocks, the integer 1 for the genesis block and [None] when the
    argument is left out. *)
Record Block : Type := {
  index : Z;
  timestamp : float;
  transactions : list Transaction;
  proof : Z;
  previous_hash : val float
}.

(** The instance attributes. *)
Record t : Type := {
  chain : list Block;
  current_transactions : list Transaction
}.

Definition transaction_dict (tx : Transaction) : val float :=
  VDict [("sender", sender tx); ("recipient", recipient tx);
         ("amount", amount tx)].

Definition block_dict (b : Block) : val float :=
  VDict [("index", VInt (index b));
         ("timestamp", VFloat (timestamp b));
         ("transactions", VList (map transaction_dict (transactions b)));
         ("proof", VInt (proof b));
         ("previous_hash", previous_hash b)].

(** Methods run on the instance: they take the state, return a value
    or raise, and leave a state behind in both cases. *)
Definition M (A : Type) : Type := t -> outcome A * t.

Definition ret {A : Type} (a : A) : M A := fun self => (Return a, self).

Definition bind {A B : Type} (m : M A) (k : A -> M B) : M B :=
  fun self =>
    match m self with
    | (Return a, self') => k a self'
    | (Raise e, self') => (Raise e, self')
    end.

Definition get : M t := fun self => (Return self, self).
Definition put (self' : t) : M unit := fun _ => (Return tt, self').
Definition lift {A : Type} (o : outcome A) : M A := fun self => (o, self).

Notation "x <- m ;; k" := (bind m (fun x => k))
  (at level 100, m at level 99, right associativity).

(** [Blockchain.create_block]; [now] is what [time()] returns in
    this call. The block keeps the list that was pending and the
    attribute is rebound to a new empty list, so later appends never
    reach a committed block. *)
Definition create_block (now : float) (proof : Z) (previous_hash : val float)
  : M Block :=
  self <- get ;;
  let block := {| index := Z.of_nat (length (chain self)) + 1;
                  timestamp := now;
                  transactions := current_transactions self;
                  proof := proof;
                  previous_hash := previous_hash |} in
  _ <- put {| chain := chain self; current_transactions := [] |} ;;
  self <- get ;;
  _ <- put {| chain := chain self ++ [block];
              current_transactions := current_transactions self |} ;;
  ret block.

(** [Blockchain.__init__] *)
Definition init (now : float) : t :=
  snd (create_block now 100 (VInt 1)
         {| chain := []; current_transactions := [] |}).

(** [Blockchain.last_block]: [self.chain[-1]] *)
Definition last_block : M Block :=
  self <- get ;;
  match last (chain self) with
  | Some b => ret b
  | None => lift (Raise IndexError)
  end.

(** [Blockchain.create_transaction] *)
Definition create_transaction (sender recipient amount : val float) : M Z :=
  self <- get ;;
  _ <- put {| chain := chain self;
              current_transactions :=
                current_transactions self
                  ++ [ {| sender := sender; recipient := recipient;
                          amount := amount |} ] |} ;;
  b <- last_block ;;
  ret (index b + 1).

(** [Blockchain.hash], where every integer of the block renders;
    [Limited.hash] has the error path. *)
Definition hash (block : Block) : string :=
  let block_string := encode (json_dumps json_float (block_dict block)) in
  SHA256.hexdigest block_string.

(** *** Ledger operations and the states they reach *)

Inductive op : Type :=
| Enqueue (sender recipient amount : val float)
| Commit (now : float) (proof : Z) (previous_hash : val float).

(** Enqueueing a given transaction. *)
Definition enqueue (tx : Transaction) : op :=
  Enqueue (sender tx) (recipient tx) (amount tx).

(** The state an operation leaves behind. *)
Definition step (s : t) (o : op) : t :=
  match o with
  | Enqueue sd rc am => snd (create_transaction sd rc am s)
  | Commit now pf ph => snd (create_block now pf ph s)
  end.

Definition run (s : t) (ops : list op) : t := foldl step s ops.

Definition reachable (s : t) : Prop :=
  exists now ops, s = run (init now) ops.

(** A commit is linked when it is given the hash of the block that
    is last at the time of the call. *)
Definition linked (s : t) (o : op) : Prop :=
  match o with
  | Enqueue _ _ _ => True
  | Commit _ _ ph => exists b, last (chain s) = Some b /\ ph = VStr (hash b)
  end.

Inductive reachable_linked : t -> Prop :=
| linked_init now : reachable_linked (init now)
| linked_step s o :
    reachable_linked s -> linked s o -> reachable_linked (step s o).

(** [chain[i].previous_hash == hash(chain[i-1])] for all [i > 0] *)
Definition chain_linked (c : list Block) : Prop :=
  forall (i : nat) (b0 b1 : Block),
    c !! i = Some b0 -> c !! S i = Some b1 ->
    previous_hash b1 = VStr (hash b0).

(** [chain[i].index == i + 1] at every position *)
Definition chain_indexed (c : list Block) : Prop :=
  forall (i : nat) (b : Block), c !! i = Some b -> index b = Z.of_nat i + 1.

End Ledger.

Arguments Transaction : clear implicits.
Arguments Block : clear implicits.
Arguments t : clear implicits.
Arguments M : clear implicits.
Arguments op : clear implicits.

End Blockchain.

(** ** The node: request handlers over the global [blockchain] *)

Module App.
Section Node.
Import Py.
Context {float : Type}.
Variable json_float : float -> string.

(** [str(uuid4()).replace('-', '')], drawn once at start-up. *)
Variable node_identifier : string.

(** What a handler returns besides the status code: a plain string or
    a [jsonify]-ed value. *)
Inductive body : Type :=
| Text (s : string)
| Json (v : val float).

Notation "x <- m ;; k" := (Blockchain.bind m (fun x => k))
  (at level 100, m at level 99, right associativity).

(** [GET /mine]. The search comes before every change of the ledger;
    the result is [None] while it is still running. Every integer is
    taken to render; [Limited.mine] has the error paths. *)
Definition mine (fuel : nat) (now : float)
  : Blockchain.M float (option (body * Z)) :=
  last_block <- Blockchain.last_block ;;
  let last_proof := Blockchain.proof last_block in
  match Blockchain.proof_of_work fuel last_proof with
  | None => Blockchain.ret None
  | Some proof =>
      _ <- Blockchain.create_transaction
             (VStr "0") (VStr node_identifier) (VInt 1) ;;
      let previous_hash := Blockchain.hash json_float last_block in
      block <- Blockchain.create_block now proof (VStr previous_hash) ;;
      let response :=
        VDict [("message", VStr "New Block Forged");
               ("index", VInt (Blockchain.index block));
               ("transactions",
                VList (map Blockchain.transaction_dict
                           (Blockchain.transactions block)));
               ("proof", VInt (Blockchain.proof block));
               ("previous_hash", Blockchain.previous_hash block)] in
      Blockchain.ret (Some (Json response, 200))
  end.

Definition required : list string := ["sender"; "recipient"; "amount"].

(** [POST /transactions/new]; [values] is [request.get_json()]. *)
Definition create_transaction (values : val float)
  : Blockchain.M float (body * Z) :=
  complete <- Blockchain.lift (all_in required values) ;;
  if negb complete then Blockchain.ret (Text "Missing values", 400)
  else
    sender <- Blockchain.lift (subscript values "sender") ;;
    recipient <- Blockchain.lift (subscript values "recipient") ;;
    amount <- Blockchain.lift (subscript values "amount") ;;
    index <- Blockchain.create_transaction sender recipient amount ;;
    let response :=
      VDict [("message",
              VStr ("Transaction will be added to Block " +:+ str_int index))] in
    Blockchain.ret (Json response, 201).

(** [GET /chain], where every integer of the chain renders;
    [Limited.full_chain] has the error path. *)
Definition full_chain : Blockchain.M float (body * Z) :=
  blockchain <- Blockchain.get ;;
  let response :=
    VDict [("chain",
            VList (map Blockchain.block_dict (Blockchain.chain blockchain)));
           ("length",
            VInt (Z.of_nat (length (Blockchain.chain blockchain))))] in
  Blockchain.ret (Json response, 200).

(** A request object lacks a required field. *)
Definition missing_field (d : list (string * val float)) : Prop :=
  exists k, k ∈ required /\ assoc k d = None.

End Node.

Arguments body : clear implicits.

End App.

(** ** A clock that ticks whole seconds

    Timestamps such as [1700000000.0]: integral floats below 10^16,
    which [json.dumps] prints with one zero after the point. *)

Definition whole_seconds : Z -> string := fun n => Py.str_int n +:+ ".0".

Module Scenario.
Import Py Blockchain.

(** A new ledger. *)
Definition fresh : t Z := init 1700000000.

Definition genesis : Block Z :=
  {| index := 1; timestamp := 1700000000; transactions := [];
     proof := 100; previous_hash := VInt 1 |}.

Definition a_to_b : Transaction Z :=
  {| sender := VStr "a"; recipient := VStr "b"; amount := VInt 5 |}.

(** One transfer enqueued, then a commit with an arbitrary string in
    place of the hash. *)
Definition unlinked_ops : list (op Z) :=
  [enqueue a_to_b; Commit 1700000009 0 (VStr "deadbeef")].

Definition unlinked : t Z := run fresh unlinked_ops.

(** What the mine handler does on the new ledger once the search has
    returned 226. *)
Definition reward : op Z := Enqueue (VStr "0") (VStr "node") (VInt 1).

Definition forge : op Z :=
  Commit 1700000005 226 (VStr (hash whole_seconds genesis)).

Definition mined : t Z := step (step fresh reward) forge.

(** A request body without the amount. *)
Definition no_amount : list (string * val Z) :=
  [("sender", VStr "a"); ("recipient", VStr "b")].

End Scenario.

(** ** Traces: what a run of operations or requests amounts to *)

Module Trace.
Section Trace.
Import Py Blockchain.
Context {float : Type}.

(** The transactions a sequence of operations enqueues, in order. *)
Definition enqueued_by (o : op float) : list (Transaction float) :=
  match o with
  | Enqueue sd rc am => [ {| sender := sd; recipient := rc; amount := am |} ]
  | Commit _ _ _ => []
  end.

Definition enqueued (ops : list (op float)) : list (Transaction float) :=
  concat (map enqueued_by ops).

(** The number of commits in a sequence of operations. *)
Definition commits_of (o : op float) : nat :=
  match o with
  | Enqueue _ _ _ => 0
  | Commit _ _ _ => 1
  end.

Definition commits (ops : list (op float)) : nat :=
  foldr (fun o n => (commits_of o + n)%nat) 0%nat ops.

(** The transactions of all committed blocks, in chain order. *)
Definition committed (s : t float) : list (Transaction float) :=
  concat (map transactions (chain s)).

(** [valid_proof(chain[i-1].proof, chain[i].proof)] for all [i > 0] *)
Definition chain_proved (c : list (Block float)) : Prop :=
  forall (i : nat) (b0 b1 : Block float),
    c !! i = Some b0 -> c !! S i = Some b1 ->
    valid_proof (proof b0) (proof b1) = true.

(** A request object that has the three required fields. *)
Definition complete (values sd rc am : val float) : Prop :=
  exists d, values = VDict d /\ assoc "sender" d = Some sd /\
            assoc "recipient" d = Some rc /\ assoc "amount" d = Some am.

(** The characters [hexdigest] is made of. *)
Definition is_lower_hex (c : ascii) : bool :=
  let n := Z.of_N (N_of_ascii c) in
  ((48 <=? n) && (n <=? 57)) || ((97 <=? n) && (n <=? 102)).

End Trace.
End Trace.

Module Server.
Section Server.
Import Py Blockchain.
Context {float : Type}.
Variable json_float : float -> string.
Variable node_identifier : string.

(** The requests the three routes answer. A [GetMine] carries what the
    handler draws from outside: the number of tests the search is given
    and the clock reading. *)
Inductive request : Type :=
| GetMine (fuel : nat) (now : float)
| PostTransaction (values : val float)
| GetChain.

(** The ledger a request leaves behind, whatever the answer. *)
Definition serve (s : t float) (r : request) : t float :=
  match r with
  | GetMine fuel now => snd (App.mine json_float node_identifier fuel now s)
  | PostTransaction values => snd (App.create_transaction values s)
  | GetChain => snd (App.full_chain s)
  end.

(** The states of the global [blockchain] after any sequence of
    requests. *)
Definition served (s : t float) : Prop :=
  exists now rs, s = foldl serve (init now) rs.

(** The transaction the mine handler adds for itself. *)
Definition reward : Transaction float :=
  {| sender := VStr "0"; recipient := VStr node_identifier; amount := VInt 1 |}.

(** What a mined block owes the block before it. *)
Definition follows (b0 b1 : Block float) : Prop :=
  previous_hash b1 = VStr (hash json_float b0) /\
  valid_proof (proof b0) (proof b1) = true /\
  last (transactions b1) = Some reward.

End Server.
Arguments request : clear implicits.
End Server.

Module Cases.
Import Py Blockchain.

(** A ledger whose last block carries the proof 265, for which the
    search stops at its first test. *)
Definition quick : t Z :=
  step Scenario.fresh
       (Commit 1700000001 265 (VStr (hash whole_seconds Scenario.genesis))).

Definition quick_last : Block Z :=
  {| index := 2; timestamp := 1700000001; transactions := [];
     proof := 265;
     previous_hash := VStr (hash whole_seconds Scenario.genesis) |}.

(** The block the mine handler forges on that ledger at 1700000002. *)
Definition quick_forged : Block Z :=
  {| index := 3; timestamp := 1700000002;
     transactions := [Server.reward "node"];
     proof := 0;
     previous_hash := VStr (hash whole_seconds quick_last) |}.

(** The items of the genesis block dict, last key first. *)
Definition genesis_reversed : list (string * val Z) :=
  reverse [("index", VInt (index Scenario.genesis));
           ("timestamp", VFloat (timestamp Scenario.genesis));
           ("transactions",
            VList (map transaction_dict (transactions Scenario.genesis)));
           ("proof", VInt (proof Scenario.genesis));
           ("previous_hash", previous_hash Scenario.genesis)].

(** A request body that is a list of the three field names. *)
Definition names_only : val Z :=
  VList [VStr "sender"; VStr "recipient"; VStr "amount"].

(** A request body with the three fields and one more. *)
Definition a_to_b_body : val Z :=
  VDict [("note", VStr "rent"); ("amount", VInt 5);
         ("sender", VStr "a"); ("recipient", VStr "b")].

(** A new node that has answered a submit, a mine and a read. *)
Definition busy_requests : list (Server.request Z) :=
  [Server.PostTransaction a_to_b_body;
   Server.GetMine 227 1700000005;
   Server.GetChain].

End Cases.

(** ** The code under the limit on integer rendering *)

Module Limited.
Import Py.

(** [sys.int_info.default_max_str_digits] *)
Definition int_max_str_digits : nat := 4300.

(** The number of decimal digits of [n], the sign apart. *)
Definition digits (n : Z) : nat := String.length (str_int (Z.abs n)).

Definition renders (n : Z) : bool := (digits n <=? int_max_str_digits)%nat.

(** [str(n)] and the f-string field [{n}]: ValueError beyond the
    limit. *)
Definition str (n : Z) : outcome string :=
  if renders n then Return (str_int n) else Raise ValueError.

Definition and_then {A B : Type} (o : outcome A) (k : A -> outcome B)
  : outcome B :=
  match o with
  | Return a => k a
  | Raise e => Raise e
  end.

Notation "x <~ o ;; k" := (and_then o (fun x => k))
  (at level 100, o at level 99, right associativity).

(** [Blockchain.valid_proof]: the f-string renders [last_proof], then
    [proof]. *)
Definition valid_proof (last_proof proof : Z) : outcome bool :=
  a <~ str last_proof ;;
  b <~ str proof ;;
  let guess := encode (a +:+ b) in
  let guess_hash := SHA256.hexdigest guess in
  Return (String.eqb (slice_to 2 guess_hash) "00").

(** [Blockchain.proof_of_work]: an exception in a test leaves the
    loop; [Return None] is the loop still running after [fuel] tests. *)
Fixpoint proof_of_work_loop (fuel : nat) (last_proof proof : Z)
  : outcome (option Z) :=
  match fuel with
  | O => Return None
  | S fuel' =>
      match valid_proof last_proof proof with
      | Return true => Return (Some proof)
      | Return false => proof_of_work_loop fuel' last_proof (proof + 1)
      | Raise e => Raise e
      end
  end.

Definition proof_of_work (fuel : nat) (last_proof : Z) : outcome (option Z) :=
  proof_of_work_loop fuel last_proof 0.

Section Node.
Context {float : Type}.
Variable json_float : float -> string.
Variable node_identifier : string.

(** No integer anywhere in the value has more digits than the limit. *)
Fixpoint within_limit (v : val float) : bool :=
  match v with
  | VInt n => renders n
  | VList l => forallb within_limit l
  | VDict d => forallb (fun kv => within_limit (snd kv)) d
  | VNone | VBool _ | VFloat _ | VStr _ => true
  end.

(** [json.dumps(v, sort_keys=True)]: ValueError when an integer of the
    value does not render, the serialisation otherwise. *)
Definition json_dumps (v : val float) : outcome string :=
  if within_limit v then Return (Py.json_dumps json_float v)
  else Raise ValueError.

(** [jsonify(v)]: serialises the value for the response. *)
Definition jsonify (v : val float) : outcome (App.body float) :=
  if within_limit v then Return (App.Json v) else Raise ValueError.

(** [Blockchain.hash] *)
Definition hash (block : Blockchain.Block float) : outcome string :=
  dumped <~ json_dumps (Blockchain.block_dict block) ;;
  let block_string := encode dumped in
  Return (SHA256.hexdigest block_string).

Notation "x <- m ;; k" := (Blockchain.bind m (fun x => k))
  (at level 100, m at level 99, right associativity).

(** [GET /mine] *)
Definition mine (fuel : nat) (now : float)
  : Blockchain.M float (option (App.body float * Z)) :=
  last_block <- Blockchain.last_block ;;
  let last_proof := Blockchain.proof last_block in
  found <- Blockchain.lift (proof_of_work fuel last_proof) ;;
  match found with
  | None => Blockchain.ret None
  | Some proof =>
      _ <- Blockchain.create_transaction
             (VStr "0") (VStr node_identifier) (VInt 1) ;;
      previous_hash <- Blockchain.lift (hash last_block) ;;
      block <- Blockchain.create_block now proof (VStr previous_hash) ;;
      let response :=
        VDict [("message", VStr "New Block Forged");
               ("index", VInt (Blockchain.index block));
               ("transactions",
                VList (map Blockchain.transaction_dict
                           (Blockchain.transactions block)));
               ("proof", VInt (Blockchain.proof block));
               ("previous_hash", Blockchain.previous_hash block)] in
      answer <- Blockchain.lift (jsonify response) ;;
      Blockchain.ret (Some (answer, 200))
  end.

(** [GET /chain] *)
Definition full_chain : Blockchain.M float (App.body float * Z) :=
  blockchain <- Blockchain.get ;;
  let response :=
    VDict [("chain",
            VList (map Blockchain.block_dict (Blockchain.chain blockchain)));
           ("length",
            VInt (Z.of_nat (length (Blockchain.chain blockchain))))] in
  answer <- Blockchain.lift (jsonify response) ;;
  Blockchain.ret (answer, 200).

End Node.

End Limited.

Module LimitCases.
Import Py Blockchain.

(** The least integer with 4301 digits. *)
Definition huge : Z := 10 ^ 4300.

(** A transfer of that amount, enqueued by a direct call. *)
Definition huge_transfer : op Z := Enqueue (VStr "a") (VStr "b") (VInt huge).

(** The ledger once that transfer is committed, in a block with the
    proof 265, for which the search stops at its first test. *)
Definition burdened : t Z :=
  step (step Scenario.fresh huge_transfer)
       (Commit 1700000003 265 (VStr "x")).

Definition burdened_last : Block Z :=
  {| index := 2; timestamp := 1700000003;
     transactions := [ {| sender := VStr "a"; recipient := VStr "b";
                          amount := VInt huge |} ];
     proof := 265; previous_hash := VStr "x" |}.

End LimitCases.

(** * Properties *)

(** ** SHA-256 *)

Section Digest.
Import Py.

(** The mask is the reduction modulo 2^32. *)
Lemma wrap32_mod (x : Z) : SHA256.wrap32 x = x mod 2 ^ 32.
Proof.
  unfold SHA256.wrap32.
  change (SHA256.two32 - 1) with (Z.ones 32).
  apply Z.land_ones. lia.
Qed.

Lemma add32_range (x y : Z) : 0 <= SHA256.add32 x y < 2 ^ 32.
Proof.
  unfold SHA256.add32. rewrite wrap32_mod. apply Z.mod_pos_bound. lia.
Qed.

(** The test vectors of FIPS 180-4 for the empty message and for the
    one-block message abc. *)
Example hexdigest_empty :
  SHA256.hexdigest []
  = "e3b0c44298fc1c149afbf4c8996fb92427ae41e4649b934ca495991b7852b855".
Proof. vm_compute. reflexivity. Qed.

Example hexdigest_abc :
  SHA256.hexdigest (encode "abc")
  = "ba7816bf8f01cfea414140de5dae2223b00361a396177a9cb410ff61f20015ad".
Proof. vm_compute. reflexivity. Qed.

End Digest.

(** ** The difficulty predicate *)

Section Difficulty.
Import Py Blockchain.

Lemma hex_digits_length n x tail :
  String.length (SHA256.hex_digits n x tail) = (n + String.length tail)%nat.
Proof. induction n as [|n IH]; simpl; [reflexivity | now rewrite IH]. Qed.

Lemma hexdigest_length msg : String.length (SHA256.hexdigest msg) = 64%nat.
Proof.
  unfold SHA256.hexdigest. cbv zeta.
  repeat rewrite hex_digits_length. reflexivity.
Qed.

Lemma two_zeros_prefix (a b : ascii) (rest : string) :
  String.eqb (slice_to 2 (String a (String b rest))) "00" = true
  <-> a = "0"%char /\ b = "0"%char.
Proof.
  unfold slice_to. cbn [String.substring]. rewrite String.eqb_eq.
  destruct rest; cbn [String.substring]; split.
  - intros H. injection H as -> ->. auto.
  - intros [-> ->]. reflexivity.
  - intros H. injection H as -> ->. auto.
  - intros [-> ->]. reflexivity.
Qed.

Lemma hexdigest_head msg :
  exists a b rest,
    SHA256.hexdigest msg = String a (String b rest).
Proof.
  unfold SHA256.hexdigest. cbv zeta.
  generalize (SHA256.digest msg). intros h.
  change (SHA256.hex_digits 8 (SHA256.ra h)) with
    (fun tail => SHA256.hex_digits 8 (SHA256.ra h) tail).
  cbn [SHA256.hex_digits]. eauto.
Qed.

(** Where both integers render, [valid_proof] is true exactly when the
    first two characters of the 64-character hex digest of SHA-256
    over the decimal string of [last_proof] followed by the decimal
    string of [proof] are both the character 0. *)
Lemma valid_proof_two_zeros (last_proof proof : Z) :
  let digest :=
    SHA256.hexdigest (encode (str_int last_proof +:+ str_int proof)) in
  String.length digest = 64%nat /\
  (valid_proof last_proof proof = true
   <-> String.get 0 digest = Some "0"%char /\
       String.get 1 digest = Some "0"%char).
Proof.
  intros digest. split; [apply hexdigest_length|].
  unfold valid_proof. cbv zeta. fold digest.
  destruct (hexdigest_head (encode (str_int last_proof +:+ str_int proof)))
    as (a & b & rest & Hd).
  fold digest in Hd. rewrite Hd, two_zeros_prefix. cbn [String.get].
  split.
  - intros [-> ->]. auto.
  - intros [Ha Hb]. split; congruence.
Qed.



(** *** The search loop *)










End Difficulty.

(** ** The ledger *)

Section LedgerProperties.
Import Py Blockchain.
Context {float : Type}.
Implicit Types (s : t float) (b : Block float) (tx : Transaction float).
Implicit Types (now : float) (sd rc am ph : val float) (o : op float).

(** *** What each method does to the state *)

Lemma create_block_eq now pf ph s :
  let b := {| index := Z.of_nat (length (chain s)) + 1;
              timestamp := now;
              transactions := current_transactions s;
              proof := pf;
              previous_hash := ph |} in
  create_block now pf ph s
  = (Return b, {| chain := chain s ++ [b]; current_transactions := [] |}).
Proof. reflexivity. Qed.

Lemma create_transaction_eq sd rc am s b :
  last (chain s) = Some b ->
  create_transaction sd rc am s
  = (Return (index b + 1),
     {| chain := chain s;
        current_transactions :=
          current_transactions s
            ++ [ {| sender := sd; recipient := rc; amount := am |} ] |}).
Proof.
  intros Hlast. unfold create_transaction, last_block, bind, get, put, ret.
  cbn [chain]. now rewrite Hlast.
Qed.

(** The append happens before [last_block] is read, so it stays even
    when that read raises. *)
Lemma create_transaction_state sd rc am s :
  snd (create_transaction sd rc am s)
  = {| chain := chain s;
       current_transactions :=
         current_transactions s
           ++ [ {| sender := sd; recipient := rc; amount := am |} ] |}.
Proof.
  unfold create_transaction, last_block, bind, get, put, ret, lift.
  cbn [chain]. now destruct (last (chain s)).
Qed.

Lemma step_enqueue_chain sd rc am s :
  chain (step s (Enqueue sd rc am)) = chain s.
Proof. cbn [step]. now rewrite create_transaction_state. Qed.

(** *** Induction over reachable states *)

Lemma reachable_init now : reachable (init now).
Proof. exists now, []. reflexivity. Qed.

Lemma reachable_step s o : reachable s -> reachable (step s o).
Proof.
  intros (now & ops & ->). exists now, (ops ++ [o]).
  unfold run. now rewrite foldl_snoc.
Qed.

Lemma reachable_induction (P : t float -> Prop) :
  (forall now, P (init now)) ->
  (forall s o, reachable s -> P s -> P (step s o)) ->
  forall s, reachable s -> P s.
Proof.
  intros Hinit Hstep s (now & ops & ->).
  induction ops as [|o ops IH] using rev_ind.
  - apply Hinit.
  - unfold run. rewrite foldl_snoc. apply Hstep; [|exact IH].
    exists now, ops. reflexivity.
Qed.

Lemma reachable_linked_reachable json_float s :
  reachable_linked json_float s -> reachable s.
Proof.
  induction 1; [apply reachable_init | now apply reachable_step].
Qed.

(** *** Indices *)

Lemma chain_indexed_snoc (c : list (Block float)) b :
  chain_indexed c ->
  index b = Z.of_nat (length c) + 1 ->
  chain_indexed (c ++ [b]).
Proof.
  intros Hc Hb i b' Hi.
  destruct (decide (i < length c)%nat) as [Hlt | Hge].
  - rewrite lookup_app_l in Hi by exact Hlt. now apply Hc.
  - rewrite lookup_app_r in Hi by lia.
    destruct (i - length c)%nat as [|k] eqn:Hk; [|discriminate].
    injection Hi as <-. rewrite Hb. lia.
Qed.

Lemma reachable_indexed s : reachable s -> chain_indexed (chain s).
Proof.
  revert s. apply reachable_induction.
  - intros now [|i] b Hi; [|discriminate].
    injection Hi as <-. reflexivity.
  - intros s [sd rc am | now pf ph] _ IH.
    + now rewrite step_enqueue_chain.
    + cbn [step]. rewrite create_block_eq. cbn [snd chain].
      apply chain_indexed_snoc; [exact IH | reflexivity].
Qed.

Lemma reachable_last s :
  reachable s ->
  exists b, last (chain s) = Some b /\ index b = Z.of_nat (length (chain s)).
Proof.
  intros Hs.
  assert (chain s <> []) as Hne.
  { revert s Hs. apply reachable_induction.
    - intros now. discriminate.
    - intros s [sd rc am | now pf ph] _ IH.
      + now rewrite step_enqueue_chain.
      + cbn [step]. rewrite create_block_eq. cbn [snd chain].
        intros H. now apply app_eq_nil in H as [_ H]. }
  destruct (last (chain s)) as [b|] eqn:Hlast.
  - exists b. split; [reflexivity|].
    rewrite last_lookup in Hlast.
    rewrite (reachable_indexed s Hs _ _ Hlast).
    destruct (chain s); [congruence | cbn [length]; lia].
  - apply last_None in Hlast. congruence.
Qed.

(** C6. In every state reachable from a fresh Blockchain by
    create_transaction and create_block calls, the block at position
    [i] of the chain has index [i + 1]. *)
Theorem chain_index_invariant s :
  reachable s ->
  forall (i : nat) b, chain s !! i = Some b -> index b = Z.of_nat i + 1.
Proof. intros Hs. exact (reachable_indexed s Hs). Qed.

(** C5. In every reachable state create_transaction appends exactly
    one transaction to the pending list, leaves the chain alone and
    returns the chain length plus 1; on a fresh Blockchain that is 2. *)
Theorem create_transaction_next_index sd rc am :
  (forall s, reachable s ->
     create_transaction sd rc am s
     = (Return (Z.of_nat (length (chain s)) + 1),
        {| chain := chain s;
           current_transactions :=
             current_transactions s
               ++ [ {| sender := sd; recipient := rc; amount := am |} ] |}))
  /\ (forall now, fst (create_transaction sd rc am (init now)) = Return 2).
Proof.
  split.
  - intros s Hs. destruct (reachable_last s Hs) as (b & Hlast & Hidx).
    rewrite (create_transaction_eq sd rc am s b Hlast). now rewrite Hidx.
  - reflexivity.
Qed.

(** C7. A fresh Blockchain holds exactly the genesis block: index 1,
    no transactions, proof 100, previous_hash the integer 1; nothing is
    pending, and last_block returns that block. *)
Theorem init_genesis now :
  let genesis := {| index := 1;
                    timestamp := now;
                    transactions := [];
                    proof := 100;
                    previous_hash := VInt 1 |} in
  chain (init now) = [genesis] /\
  current_transactions (init now) = [] /\
  last_block (init now) = (Return genesis, init now).
Proof. repeat split. Qed.

(** *** Pending transactions *)

Lemma run_enqueue s (txs : list (Transaction float)) :
  run s (map enqueue txs)
  = {| chain := chain s;
       current_transactions := current_transactions s ++ txs |}.
Proof.
  revert s. induction txs as [|tx txs IH]; intros s.
  - cbn [map run foldl]. rewrite app_nil_r. now destruct s.
  - cbn [map]. unfold run in *. cbn [foldl]. rewrite IH.
    unfold enqueue. cbn [step]. rewrite create_transaction_state.
    cbn [chain current_transactions]. rewrite <- app_assoc.
    now destruct tx.
Qed.

(** C2. In any state create_block returns a block whose transactions
    are the pending list as it stands, and leaves the pending list
    empty and the chain extended by that block. Hence the
    transactions enqueued after one commit, in any number, are the
    transactions of the block of the next commit, in enqueue order,
    each once. *)
Theorem create_block_takes_pending :
  (forall s now pf ph,
     exists b,
       create_block now pf ph s
       = (Return b, {| chain := chain s ++ [b]; current_transactions := [] |})
       /\ transactions b = current_transactions s) /\
  (forall s now0 pf0 ph0 (txs : list (Transaction float)) now pf ph,
     let s1 := step s (Commit now0 pf0 ph0) in
     let s2 := run s1 (map enqueue txs) in
     current_transactions s1 = [] /\
     current_transactions s2 = txs /\
     exists b,
       create_block now pf ph s2
       = (Return b, {| chain := chain s2 ++ [b]; current_transactions := [] |})
       /\ transactions b = txs).
Proof.
  split.
  - intros s now pf ph. eexists. split; [apply create_block_eq | reflexivity].
  - intros s now0 pf0 ph0 txs now pf ph s1 s2.
    assert (current_transactions s2 = txs) as Hpending.
    { unfold s2. rewrite run_enqueue. reflexivity. }
    split; [reflexivity|]. split; [exact Hpending|].
    eexists. split; [apply create_block_eq | exact Hpending].
Qed.

(** *** Hash links *)

Section Links.
Variable json_float : float -> string.

Lemma chain_linked_snoc (c : list (Block float)) b0 b :
  chain_linked json_float c ->
  last c = Some b0 ->
  previous_hash b = VStr (hash json_float b0) ->
  chain_linked json_float (c ++ [b]).
Proof.
  intros Hc Hlast Hb i x y Hx Hy.
  apply lookup_lt_Some in Hx as Hi.
  destruct (decide (S i < length c)%nat) as [Hlt | Hge].
  - rewrite lookup_app_l in Hx by lia.
    rewrite lookup_app_l in Hy by lia.
    now apply (Hc i).
  - apply lookup_lt_Some in Hy as Hj. rewrite length_app in Hj.
    cbn [length] in Hj.
    assert (S i = length c) as Hlen by lia.
    rewrite lookup_app_l in Hx by lia.
    rewrite lookup_app_r in Hy by lia.
    replace (S i - length c)%nat with 0%nat in Hy by lia.
    injection Hy as <-.
    rewrite last_lookup, <- Hlen in Hlast. cbn [pred] in Hlast.
    congruence.
Qed.

(** C1, as the code has it: create_block stores whatever
    previous_hash it is given, so the link holds for the states
    reached by create_transaction calls and by create_block calls
    that are given the hash of the block last at the time of the
    call. In every such state each block after the first carries
    the hash of the block before it. *)
Theorem linked_chain_invariant s :
  reachable_linked json_float s ->
  forall (i : nat) b0 b1,
    chain s !! i = Some b0 -> chain s !! S i = Some b1 ->
    previous_hash b1 = VStr (hash json_float b0).
Proof.
  intros Hs. change (chain_linked json_float (chain s)).
  induction Hs as [now | s o Hs IH Hlinked].
  - intros i b0 b1 _ H1. destruct i; discriminate.
  - destruct o as [sd rc am | now pf ph].
    + now rewrite step_enqueue_chain.
    + destruct Hlinked as (b0 & Hlast & ->).
      cbn [step]. rewrite create_block_eq. cbn [snd chain].
      now apply (chain_linked_snoc (chain s) b0).
Qed.

(** The mine handler is one create_transaction followed by one
    linked create_block. *)
Lemma mine_steps (node_identifier : string) fuel now s b pf :
  last (chain s) = Some b ->
  proof_of_work fuel (proof b) = Some pf ->
  let s1 := step s (Enqueue (VStr "0") (VStr node_identifier) (VInt 1)) in
  snd (App.mine json_float node_identifier fuel now s)
  = step s1 (Commit now pf (VStr (hash json_float b)))
  /\ linked json_float s1 (Commit now pf (VStr (hash json_float b))).
Proof.
  intros Hlast Hpow s1. split.
  - unfold App.mine, last_block, bind, get, ret. cbn beta iota.
    rewrite Hlast, Hpow.
    rewrite (create_transaction_eq _ _ _ s b Hlast).
    unfold s1. cbn [step]. rewrite create_transaction_state.
    reflexivity.
  - exists b. split; [|reflexivity].
    unfold s1. now rewrite step_enqueue_chain.
Qed.

Lemma mine_reachable_linked (node_identifier : string) fuel now s r s' :
  reachable_linked json_float s ->
  App.mine json_float node_identifier fuel now s = (Return (Some r), s') ->
  reachable_linked json_float s'.
Proof.
  intros Hs Hmine.
  destruct (reachable_last s (reachable_linked_reachable _ s Hs))
    as (b & Hlast & _).
  destruct (proof_of_work fuel (proof b)) as [pf|] eqn:Hpow.
  - destruct (mine_steps node_identifier fuel now s b pf Hlast Hpow)
      as [Hstate Hlinked].
    rewrite Hmine in Hstate. cbn [snd] in Hstate. subst s'.
    apply linked_step; [|exact Hlinked].
    apply linked_step; [exact Hs | exact I].
  - unfold App.mine, last_block, bind, get, ret in Hmine.
    cbn beta iota in Hmine. rewrite Hlast, Hpow in Hmine. discriminate.
Qed.

End Links.

(** *** Rejected requests *)

Lemma all_in_missing (d : list (string * val float)) :
  App.missing_field d -> all_in App.required (VDict d) = Return false.
Proof.
  intros (k & Hk & Hnone). unfold App.required in *. cbn [all_in contains].
  repeat (apply elem_of_cons in Hk as [-> | Hk]);
    [| | | now apply elem_of_nil in Hk];
    rewrite ?Hnone;
    repeat (match goal with
            | |- context [assoc ?k d] => destruct (assoc k d)
            end; cbn; try reflexivity).
Qed.

(** C9. A submit-transfer request whose object lacks sender,
    recipient or amount gets the answer Missing values with status
    400, and the ledger is left exactly as it was: no method of the
    Blockchain runs. *)
Theorem create_transaction_missing_field (d : list (string * val float)) s :
  App.missing_field d ->
  App.create_transaction (VDict d) s = (Return (App.Text "Missing values", 400), s).
Proof.
  intros Hmissing. unfold App.create_transaction, bind, lift.
  now rewrite (all_in_missing d Hmissing).
Qed.

(** Whatever the request body, the ledger changes only when the body
    is an object with all three fields. *)
Lemma create_transaction_changes_only_complete (values : val float) s :
  snd (App.create_transaction values s) <> s ->
  exists d sd rc am,
    values = VDict d /\ assoc "sender" d = Some sd /\
    assoc "recipient" d = Some rc /\ assoc "amount" d = Some am.
Proof.
  unfold App.create_transaction, bind, lift.
  destruct (all_in App.required values) as [[|]|e] eqn:Hall; cbn [negb snd];
    try (intros H; now contradiction H).
  destruct values as [| | | | |l|d]; cbn [subscript snd];
    try (intros H; now contradiction H).
  destruct (assoc "sender" d) as [sd|] eqn:Hsd;
    [|cbn [snd]; intros H; now contradiction H].
  destruct (assoc "recipient" d) as [rc|] eqn:Hrc;
    [|cbn [snd]; intros H; now contradiction H].
  destruct (assoc "amount" d) as [am|] eqn:Ham;
    [|cbn [snd]; intros H; now contradiction H].
  intros _. now exists d, sd, rc, am.
Qed.

End LedgerProperties.

(** ** The scenarios, on the whole-second clock *)

Section Scenarios.
Import Py Blockchain Scenario.

Lemma fresh_reachable : reachable fresh.
Proof. exists 1700000000, []. reflexivity. Defined.

Lemma unlinked_reachable : reachable unlinked.
Proof. exists 1700000000, unlinked_ops. reflexivity. Defined.

Lemma mined_reachable_linked : reachable_linked whole_seconds mined.
Proof.
  unfold mined. apply linked_step.
  - apply linked_step; [apply linked_init | exact I].
  - exists genesis. split; reflexivity.
Defined.

(** Scenario A *)
Example fresh_last_block_index :
  fst (last_block fresh) = Return genesis /\ index genesis = 1.
Proof. split; reflexivity. Qed.

(** Scenario B *)
Example enqueue_then_commit :
  let (r, s1) := create_transaction (VStr "a") (VStr "b") (VInt 5) fresh in
  let (b, s2) := create_block 1700000009 0 (VStr "deadbeef") s1 in
  r = Return 2 /\
  b = Return {| index := 2; timestamp := 1700000009;
                transactions := [a_to_b]; proof := 0;
                previous_hash := VStr "deadbeef" |} /\
  current_transactions s2 = [].
Proof. repeat split. Qed.

(** Scenario C *)
Example valid_proof_100_0 : valid_proof 100 0 = false.
Proof. vm_compute. reflexivity. Qed.

Example genesis_hash :
  hash whole_seconds genesis
  = "e9e15af60d7465a1d85491783968224a0d97754ffb0df70b8237aec809d9076d".
Proof. vm_compute. reflexivity. Qed.

(** The mine handler on the new ledger. *)
Example mine_fresh :
  snd (App.mine whole_seconds "node" 227 1700000005 fresh) = mined.
Proof. vm_compute. reflexivity. Qed.

(** C1, as the claim has it, fails: a create_block call with any
    other string than the hash of the last block is accepted and
    stored. *)
Lemma chain_link_counterexample :
  ~ (forall s : t Z,
       reachable s ->
       forall (i : nat) b0 b1,
         chain s !! i = Some b0 -> chain s !! S i = Some b1 ->
         previous_hash b1 = VStr (hash whole_seconds b0)).
Proof.
  intros Hclaim.
  specialize (Hclaim unlinked unlinked_reachable 0%nat
                genesis
                {| index := 2; timestamp := 1700000009;
                   transactions := [a_to_b]; proof := 0;
                   previous_hash := VStr "deadbeef" |}
                eq_refl eq_refl).
  vm_compute in Hclaim. discriminate Hclaim.
Qed.

Lemma linked_chain_invariant_witness :
  reachable_linked whole_seconds mined /\
  forall (i : nat) b0 b1,
    chain mined !! i = Some b0 -> chain mined !! S i = Some b1 ->
    previous_hash b1 = VStr (hash whole_seconds b0).
Proof.
  split; [exact mined_reachable_linked|].
  exact (linked_chain_invariant whole_seconds mined mined_reachable_linked).
Defined.

Lemma chain_index_invariant_witness :
  reachable unlinked /\
  forall (i : nat) b, chain unlinked !! i = Some b -> index b = Z.of_nat i + 1.
Proof.
  split; [exact unlinked_reachable|].
  exact (chain_index_invariant unlinked unlinked_reachable).
Defined.

Lemma create_transaction_next_index_witness :
  reachable fresh /\
  create_transaction (VStr "a") (VStr "b") (VInt 5) fresh
  = (Return 2, {| chain := [genesis]; current_transactions := [a_to_b] |}).
Proof.
  split; [exact fresh_reachable|].
  exact (proj1 (create_transaction_next_index (VStr "a") (VStr "b") (VInt 5))
               fresh fresh_reachable).
Defined.

Lemma no_amount_missing : App.missing_field no_amount.
Proof.
  exists "amount". split; [|reflexivity].
  do 2 apply list_elem_of_further. apply list_elem_of_here.
Defined.

(** Scenario D *)
Lemma create_transaction_missing_field_witness :
  App.missing_field no_amount /\
  App.create_transaction (VDict no_amount) fresh
  = (Return (App.Text "Missing values", 400), fresh).
Proof.
  split; [exact no_amount_missing|].
  exact (create_transaction_missing_field no_amount fresh no_amount_missing).
Defined.

End Scenarios.

(** * Further properties of the code *)

(** ** The ledger over whole runs *)

Section Runs.
Import Py Blockchain Trace.
Context {float : Type}.
Implicit Types (s : t float) (b : Block float) (tx : Transaction float).
Implicit Types (now : float) (sd rc am ph : val float) (o : op float).
Implicit Types (ops : list (op float)).

Lemma run_cons s o ops : run s (o :: ops) = run (step s o) ops.
Proof. reflexivity. Qed.

(** One operation: the chain gains the committed block, if any, and
    what is committed or pending gains the enqueued transaction, if
    any. *)
Lemma step_chain s o :
  exists added,
    chain (step s o) = chain s ++ added /\ length added = commits_of o.
Proof.
  destruct o as [sd rc am | now pf ph].
  - exists []. rewrite step_enqueue_chain, app_nil_r. now split.
  - cbn [step]. rewrite create_block_eq. cbn [snd chain].
    eexists [_]. now split.
Qed.

Lemma step_conserves s o :
  committed (step s o) ++ current_transactions (step s o)
  = (committed s ++ current_transactions s) ++ enqueued_by o.
Proof.
  destruct o as [sd rc am | now pf ph]; cbn [step enqueued_by].
  - rewrite create_transaction_state. unfold committed.
    cbn [chain current_transactions]. now rewrite app_assoc.
  - rewrite create_block_eq. unfold committed.
    cbn [snd chain current_transactions transactions].
    rewrite map_app, concat_app. cbn [map concat transactions].
    now rewrite !app_nil_r.
Qed.

(** X1. last_block never changes the ledger; it raises IndexError
    exactly when the chain is empty, which no reachable state has: in
    a reachable state it returns the block at the last position, and
    that block's index is the length of the chain. *)
Theorem last_block_behaviour s :
  snd (last_block s) = s /\
  (fst (last_block s) = Raise IndexError <-> chain s = []) /\
  (reachable s ->
   exists b, last_block s = (Return b, s) /\
             index b = Z.of_nat (length (chain s)) /\
             chain s !! pred (length (chain s)) = Some b).
Proof.
  unfold last_block, bind, get, ret, lift. cbn beta iota.
  split; [now destruct (last (chain s))|]. split.
  - destruct (last (chain s)) eqn:Hlast; cbn [fst]; split; intros H.
    + discriminate.
    + rewrite H in Hlast. discriminate.
    + now apply last_None.
    + reflexivity.
  - intros Hs. destruct (reachable_last s Hs) as (b & Hlast & Hidx).
    exists b. rewrite Hlast. repeat split; [exact Hidx|].
    now rewrite <- last_lookup.
Qed.

(** X2. The chain only grows at its end: after any run of operations
    it is the chain before, followed by one new block per commit.
    No operation changes or removes a committed block. *)
Theorem chain_append_only s ops :
  exists added,
    chain (run s ops) = chain s ++ added /\ length added = commits ops.
Proof.
  revert s. induction ops as [|o ops IH]; intros s.
  - exists []. now rewrite app_nil_r.
  - rewrite run_cons. destruct (IH (step s o)) as (added' & Hrun & Hlen).
    destruct (step_chain s o) as (added & Hstep & Hlen').
    exists (added ++ added'). split.
    + now rewrite Hrun, Hstep, app_assoc.
    + rewrite length_app, Hlen, Hlen'. reflexivity.
Qed.

(** X3. Nothing is lost and nothing is doubled: after any run of
    operations on a new Blockchain, the transactions of the blocks in
    chain order, followed by the pending ones, are exactly the
    transactions that were enqueued, in the order of the calls. *)
Theorem transactions_conserved now ops :
  let s := run (init now) ops in
  committed s ++ current_transactions s = enqueued ops.
Proof.
  cbv zeta.
  assert (forall s,
            committed (run s ops) ++ current_transactions (run s ops)
            = (committed s ++ current_transactions s) ++ enqueued ops) as Hrun.
  { induction ops as [|o ops IH]; intros s.
    - cbn [run foldl]. unfold enqueued. cbn [map concat].
      now rewrite app_nil_r.
    - rewrite run_cons, IH, step_conserves. unfold enqueued.
      cbn [map concat]. now rewrite app_assoc. }
  now rewrite Hrun.
Qed.

(** X4. create_transaction keeps its promise: in a reachable state,
    the index it returns is the index of the block of the next
    create_block call, whatever is enqueued in between; that block
    holds the transaction and sits at position index - 1. *)
Theorem create_transaction_index_kept sd rc am s :
  reachable s ->
  exists idx s1,
    create_transaction sd rc am s = (Return idx, s1) /\
    forall (txs : list (Transaction float)) now pf ph,
      exists b s2,
        create_block now pf ph (run s1 (map enqueue txs)) = (Return b, s2) /\
        index b = idx /\
        {| sender := sd; recipient := rc; amount := am |} ∈ transactions b /\
        chain s2 !! Z.to_nat (idx - 1) = Some b.
Proof.
  intros Hs. destruct (reachable_last s Hs) as (b0 & Hlast & Hidx).
  eexists _, _. split; [exact (create_transaction_eq sd rc am s b0 Hlast)|].
  intros txs now pf ph. rewrite run_enqueue. cbn [chain current_transactions].
  eexists _, _. split; [apply create_block_eq|].
  cbn [index transactions chain]. repeat split.
  - lia.
  - apply elem_of_app. left. apply elem_of_app. right. apply list_elem_of_here.
  - rewrite Hidx. replace (Z.to_nat (Z.of_nat (length (chain s)) + 1 - 1))
      with (length (chain s)) by lia.
    rewrite lookup_app_r by lia. now rewrite Nat.sub_diag.
Qed.

End Runs.

(** ** The search, for any budget *)

Section Search.
Import Blockchain.


End Search.

(** ** The request handlers *)

Section Requests.
Import Py Blockchain Trace.
Context {float : Type}.
Variable json_float : float -> string.
Variable node_identifier : string.
Implicit Types (s : t float) (b : Block float) (tx : Transaction float).
Implicit Types (now : float) (sd rc am ph values : val float).

Local Abbreviation reward := (Server.reward (float := float) node_identifier).
Local Abbreviation reward_op := (enqueue reward).
Local Abbreviation mine := (App.mine json_float node_identifier).
Local Abbreviation serve := (Server.serve json_float node_identifier).
Local Abbreviation served := (Server.served json_float node_identifier).

Lemma proof_of_work_loop_sound (fuel : nat) (r p c : Z) :
  proof_of_work_loop fuel r p = Some c -> valid_proof r c = true.
Proof.
  revert p. induction fuel as [|fuel IH]; intros p; cbn [proof_of_work_loop].
  - discriminate.
  - destruct (valid_proof r p) eqn:Hp; [|apply IH].
    intros [= <-]. exact Hp.
Qed.

(** *** POST /transactions/new, case by case *)

Lemma all_in_complete (d : list (string * val float)) sd rc am :
  assoc "sender" d = Some sd -> assoc "recipient" d = Some rc ->
  assoc "amount" d = Some am ->
  all_in App.required (VDict d) = Return true.
Proof.
  intros Hsd Hrc Ham. unfold App.required. cbn [all_in contains].
  now rewrite Hsd, Hrc, Ham.
Qed.

Lemma create_transaction_complete values sd rc am s b :
  last (chain s) = Some b ->
  complete values sd rc am ->
  App.create_transaction values s
  = (Return (App.Json
               (VDict [("message",
                        VStr ("Transaction will be added to Block "
                              +:+ str_int (index b + 1)))]), 201),
     step s (Enqueue sd rc am)).
Proof.
  intros Hlast (d & -> & Hsd & Hrc & Ham).
  unfold App.create_transaction, bind, lift.
  rewrite (all_in_complete d sd rc am Hsd Hrc Ham). cbn [negb subscript].
  rewrite Hsd, Hrc, Ham.
  rewrite (create_transaction_eq sd rc am s b Hlast).
  cbn [step]. now rewrite create_transaction_state.
Qed.

Lemma create_transaction_not_object values s :
  (forall d, values <> VDict d) ->
  App.create_transaction values s = (Return (App.Text "Missing values", 400), s)
  \/ App.create_transaction values s = (Raise TypeError, s).
Proof.
  intros Hnot. unfold App.create_transaction, bind, lift, App.required.
  destruct values as [| | | |str|l|d]; cbn [all_in contains];
    try (right; reflexivity).
  - destruct (str_contains "sender" str); [|left; reflexivity].
    destruct (str_contains "recipient" str); [|left; reflexivity].
    destruct (str_contains "amount" str); [right|left]; reflexivity.
  - repeat match goal with
           | |- context [existsb ?f l] =>
               destruct (existsb f l); [|left; reflexivity]
           end.
    right. reflexivity.
  - now contradiction (Hnot d).
Qed.

Lemma create_transaction_lacking (d : list (string * val float)) (k : string) s :
  k ∈ App.required -> assoc k d = None ->
  App.create_transaction (VDict d) s
  = (Return (App.Text "Missing values", 400), s).
Proof.
  intros Hk Hnone. unfold App.create_transaction, bind, lift.
  rewrite (all_in_missing d); [reflexivity|]. now exists k.
Qed.

Lemma create_transaction_cases values s b :
  last (chain s) = Some b ->
  (exists sd rc am body,
     complete values sd rc am /\
     App.create_transaction values s
     = (Return (body, 201), step s (Enqueue sd rc am)))
  \/ App.create_transaction values s
     = (Return (App.Text "Missing values", 400), s)
  \/ (App.create_transaction values s = (Raise TypeError, s)
      /\ forall d, values <> VDict d).
Proof.
  intros Hlast.
  assert ((exists d, values = VDict d) \/ forall d, values <> VDict d)
    as [(d & ->) | Hnot].
  { destruct values; try (right; discriminate). left. eauto. }
  - destruct (assoc "sender" d) as [sd|] eqn:Hsd;
      [|right; left; apply (create_transaction_lacking d "sender");
        [repeat constructor | exact Hsd]].
    destruct (assoc "recipient" d) as [rc|] eqn:Hrc;
      [|right; left; apply (create_transaction_lacking d "recipient");
        [repeat constructor | exact Hrc]].
    destruct (assoc "amount" d) as [am|] eqn:Ham;
      [|right; left; apply (create_transaction_lacking d "amount");
        [repeat constructor | exact Ham]].
    left. exists sd, rc, am. eexists. split.
    + exists d. auto.
    + apply (create_transaction_complete _ sd rc am s b Hlast).
      exists d. auto.
  - destruct (create_transaction_not_object values s Hnot) as [H | H]; auto.
Qed.

(** X6. A complete submit-transfer request on a reachable ledger is
    answered 201 with the message naming block number chain length
    plus 1; the three values go to the end of the pending list as one
    transaction, other fields of the request are ignored, and the
    chain is left alone. *)
Theorem submit_accepted values sd rc am s :
  reachable s ->
  complete values sd rc am ->
  App.create_transaction values s
  = (Return (App.Json
               (VDict [("message",
                        VStr ("Transaction will be added to Block "
                              +:+ str_int (Z.of_nat (length (chain s)) + 1)))]),
             201),
     {| chain := chain s;
        current_transactions :=
          current_transactions s
            ++ [ {| sender := sd; recipient := rc; amount := am |} ] |}).
Proof.
  intros Hs Hcomplete. destruct (reachable_last s Hs) as (b & Hlast & Hidx).
  rewrite (create_transaction_complete values sd rc am s b Hlast Hcomplete).
  cbn [step]. now rewrite create_transaction_state, Hidx.
Qed.

(** X7. On a reachable ledger the submit-transfer handler has three
    outcomes and no other: 201 with the transaction enqueued, for an
    object with the three fields; 400 Missing values with the ledger
    untouched; or an uncaught TypeError with the ledger untouched,
    which only a body that is not an object can cause. It never raises
    KeyError or IndexError. *)
Theorem submit_outcomes values s :
  reachable s ->
  (exists sd rc am body,
     complete values sd rc am /\
     App.create_transaction values s
     = (Return (body, 201), step s (Enqueue sd rc am)))
  \/ App.create_transaction values s
     = (Return (App.Text "Missing values", 400), s)
  \/ (App.create_transaction values s = (Raise TypeError, s)
      /\ forall d, values <> VDict d).
Proof.
  intros Hs. destruct (reachable_last s Hs) as (b & Hlast & _).
  exact (create_transaction_cases values s b Hlast).
Qed.

(** *** GET /mine *)

Lemma mine_eq fuel now s b pf :
  last (chain s) = Some b ->
  proof_of_work fuel (proof b) = Some pf ->
  let block := {| index := Z.of_nat (length (chain s)) + 1;
                  timestamp := now;
                  transactions := current_transactions s ++ [reward];
                  proof := pf;
                  previous_hash := VStr (hash json_float b) |} in
  mine fuel now s
  = (Return (Some (App.Json
                     (VDict [("message", VStr "New Block Forged");
                             ("index", VInt (index block));
                             ("transactions",
                              VList (map transaction_dict (transactions block)));
                             ("proof", VInt pf);
                             ("previous_hash", VStr (hash json_float b))]),
                   200)),
     {| chain := chain s ++ [block]; current_transactions := [] |}).
Proof.
  intros Hlast Hpow block.
  unfold App.mine, last_block, bind, get, ret. cbn beta iota.
  rewrite Hlast, Hpow.
  now rewrite (create_transaction_eq _ _ _ s b Hlast).
Qed.

Lemma mine_waiting fuel now s b :
  last (chain s) = Some b ->
  proof_of_work fuel (proof b) = None ->
  mine fuel now s = (Return None, s).
Proof.
  intros Hlast Hpow.
  unfold App.mine, last_block, bind, get, ret. cbn beta iota.
  now rewrite Hlast, Hpow.
Qed.

(** *** Any sequence of requests *)

(** What one request does to the ledger. *)
Lemma serve_cases s b (r : Server.request float) :
  last (chain s) = Some b ->
  serve s r = s
  \/ (exists sd rc am, serve s r = step s (Enqueue sd rc am))
  \/ (exists now pf,
        valid_proof (proof b) pf = true /\
        serve s r
        = step (step s reward_op)
               (Commit now pf (VStr (hash json_float b)))).
Proof.
  intros Hlast. destruct r as [fuel now | values |]; cbn [Server.serve].
  - destruct (proof_of_work fuel (proof b)) as [pf|] eqn:Hpow.
    + right. right. exists now, pf. split.
      * exact (proof_of_work_loop_sound fuel (proof b) 0 pf Hpow).
      * rewrite (mine_eq fuel now s b pf Hlast Hpow).
        cbn [step enqueue Server.reward sender recipient amount].
        now rewrite create_transaction_state.
    + left. now rewrite (mine_waiting fuel now s b Hlast Hpow).
  - destruct (create_transaction_cases values s b Hlast)
      as [(sd & rc & am & body & _ & ->) | [-> | [-> _]]].
    + right. left. now exists sd, rc, am.
    + left. reflexivity.
    + left. reflexivity.
  - left. reflexivity.
Qed.

Lemma served_induction (P : t float -> Prop) :
  (forall now, P (init now)) ->
  (forall s r, served s -> P s -> P (serve s r)) ->
  forall s, served s -> P s.
Proof.
  intros Hinit Hstep s (now & rs & ->).
  induction rs as [|r rs IH] using rev_ind.
  - apply Hinit.
  - rewrite foldl_snoc. apply Hstep; [|exact IH]. now exists now, rs.
Qed.

Lemma served_reachable s : served s -> reachable s.
Proof.
  revert s. apply served_induction; [apply reachable_init|].
  intros s r _ Hs. destruct (reachable_last s Hs) as (b & Hlast & _).
  destruct (serve_cases s b r Hlast)
    as [-> | [(sd & rc & am & ->) | (now & pf & _ & ->)]];
    auto using reachable_step.
Qed.

Local Abbreviation follows := (Server.follows json_float node_identifier).

Lemma adjacent_snoc (c : list (Block float)) b0 b :
  (forall (i : nat) x y, c !! i = Some x -> c !! S i = Some y -> follows x y) ->
  last c = Some b0 ->
  follows b0 b ->
  forall (i : nat) x y,
    (c ++ [b]) !! i = Some x -> (c ++ [b]) !! S i = Some y -> follows x y.
Proof.
  intros Hc Hlast Hb i x y Hx Hy.
  destruct (decide (S i < length c)%nat) as [Hlt | Hge].
  - rewrite lookup_app_l in Hx by lia.
    rewrite lookup_app_l in Hy by lia.
    now apply (Hc i).
  - apply lookup_lt_Some in Hy as Hj. rewrite length_app in Hj.
    cbn [length] in Hj.
    assert (S i = length c) as Hlen by lia.
    rewrite lookup_app_l in Hx by lia.
    rewrite lookup_app_r in Hy by lia.
    replace (S i - length c)%nat with 0%nat in Hy by lia.
    injection Hy as <-.
    rewrite last_lookup, <- Hlen in Hlast. cbn [pred] in Hlast.
    congruence.
Qed.

Lemma served_follows s :
  served s ->
  forall (i : nat) x y,
    chain s !! i = Some x -> chain s !! S i = Some y -> follows x y.
Proof.
  intros Hs. pattern s. revert s Hs. apply served_induction.
  - intros now i x y _ Hy. destruct i; discriminate.
  - intros s r Hserved IH.
    destruct (reachable_last s (served_reachable s Hserved)) as (b & Hlast & _).
    destruct (serve_cases s b r Hlast)
      as [-> | [(sd & rc & am & ->) | (now & pf & Hvalid & ->)]].
    + exact IH.
    + now rewrite step_enqueue_chain.
    + cbn [step enqueue]. rewrite create_block_eq. cbn [snd chain].
      rewrite !create_transaction_state. cbn [chain current_transactions].
      apply (adjacent_snoc (chain s) b); [exact IH | exact Hlast|].
      repeat split; cbn [previous_hash proof transactions];
        [exact Hvalid | apply last_snoc].
Qed.

(** X9. Whatever requests the node has answered, its chain is valid:
    each block after the first carries the hash of the block before
    it, a proof that passes valid_proof against the proof before it,
    and the next index. *)
Theorem served_chain_valid s :
  served s ->
  forall (i : nat) b0 b1,
    chain s !! i = Some b0 -> chain s !! S i = Some b1 ->
    previous_hash b1 = VStr (hash json_float b0) /\
    valid_proof (proof b0) (proof b1) = true /\
    index b1 = index b0 + 1.
Proof.
  intros Hs i b0 b1 H0 H1.
  destruct (served_follows s Hs i b0 b1 H0 H1) as (Hhash & Hvalid & _).
  repeat split; [exact Hhash | exact Hvalid|].
  pose proof (reachable_indexed s (served_reachable s Hs)) as Hidx.
  rewrite (Hidx i b0 H0), (Hidx (S i) b1 H1). lia.
Qed.

(** X10. Whatever requests the node has answered, the first block is
    the genesis block, without transactions, and every later block
    ends with the reward transaction from sender 0 to this node with
    amount 1: each mined block pays the node once at its end. *)
Theorem served_rewards s :
  served s ->
  (exists b0, chain s !! 0%nat = Some b0 /\ index b0 = 1 /\
              transactions b0 = [] /\ proof b0 = 100 /\
              previous_hash b0 = VInt 1) /\
  (forall (i : nat) b, chain s !! S i = Some b ->
                       last (transactions b) = Some reward).
Proof.
  intros Hs. split.
  - revert s Hs. apply served_induction.
    + intros now. eexists. repeat split.
    + intros s r Hserved (b0 & H0 & Hrest).
      destruct (reachable_last s (served_reachable s Hserved))
        as (b & Hlast & _).
      exists b0. split; [|exact Hrest].
      destruct (serve_cases s b r Hlast)
        as [-> | [(sd & rc & am & ->) | (now & pf & _ & ->)]].
      * exact H0.
      * now rewrite step_enqueue_chain.
      * cbn [step enqueue]. rewrite create_block_eq. cbn [snd chain].
        rewrite !create_transaction_state. cbn [chain].
        apply lookup_app_l_Some. exact H0.
  - intros i b Hb.
    assert (is_Some (chain s !! i)) as (x & Hx).
    { apply lookup_lt_is_Some. apply lookup_lt_Some in Hb. lia. }
    now destruct (served_follows s Hs i x b Hx Hb) as (_ & _ & Hreward).
Qed.

End Requests.

(** ** Block hashes *)

Section Hashing.
Import Py Blockchain Trace.
Context {float : Type}.
Variable json_float : float -> string.

(** *** Digest characters *)

Lemma hex_digit_lower (x : Z) :
  is_lower_hex (SHA256.hex_digit (x mod 16)) = true.
Proof.
  pose proof (Z.mod_pos_bound x 16 ltac:(lia)) as Hrange.
  generalize dependent (x mod 16). intros d Hrange.
  assert (d = 0 \/ d = 1 \/ d = 2 \/ d = 3 \/ d = 4 \/ d = 5 \/ d = 6 \/
          d = 7 \/ d = 8 \/ d = 9 \/ d = 10 \/ d = 11 \/ d = 12 \/ d = 13 \/
          d = 14 \/ d = 15) as Hcases by lia.
  repeat (destruct Hcases as [-> | Hcases]; [reflexivity|]).
  subst d. reflexivity.
Qed.

Lemma hex_digits_lower (n : nat) (x : Z) (tail : string) :
  forallb is_lower_hex (String.list_ascii_of_string tail) = true ->
  forallb is_lower_hex
          (String.list_ascii_of_string (SHA256.hex_digits n x tail)) = true.
Proof.
  intros Htail. induction n as [|n IH]; [exact Htail|].
  cbn [SHA256.hex_digits String.list_ascii_of_string forallb].
  now rewrite hex_digit_lower, IH.
Qed.

(** Where every integer of the block renders, the hash is a string
    of exactly 64 characters, each a digit or a letter a to f. *)
Lemma hash_lower_hex (b : Block float) :
  String.length (hash json_float b) = 64%nat /\
  forallb is_lower_hex (String.list_ascii_of_string (hash json_float b)) = true.
Proof.
  unfold hash. cbv zeta. split; [apply hexdigest_length|].
  unfold SHA256.hexdigest. cbv zeta.
  repeat apply hex_digits_lower. reflexivity.
Qed.

(** *** Key order *)

Lemma ascii_compare_refl (a : ascii) : Ascii.compare a a = Eq.
Proof. apply N.compare_refl. Qed.

Lemma string_compare_refl (s : string) : String.compare s s = Eq.
Proof.
  induction s as [|a s IH]; cbn [String.compare]; [reflexivity|].
  now rewrite ascii_compare_refl.
Qed.

Lemma string_compare_trans (s1 s2 s3 : string) :
  String.compare s1 s2 = Lt -> String.compare s2 s3 = Lt ->
  String.compare s1 s3 = Lt.
Proof.
  revert s2 s3. induction s1 as [|a s1 IH]; intros [|b s2] [|c s3];
    cbn [String.compare]; try discriminate; try reflexivity.
  destruct (Ascii.compare a b) eqn:Hab; try discriminate;
    destruct (Ascii.compare b c) eqn:Hbc; try discriminate.
  - apply Ascii.compare_eq_iff in Hab, Hbc. subst.
    rewrite ascii_compare_refl. apply IH.
  - apply Ascii.compare_eq_iff in Hab. subst. now rewrite Hbc.
  - apply Ascii.compare_eq_iff in Hbc. subst. now rewrite Hab.
  - intros _ _. unfold Ascii.compare in *.
    rewrite N.compare_lt_iff in Hab, Hbc.
    assert (N_of_ascii a < N_of_ascii c)%N as Hac by lia.
    apply N.compare_lt_iff in Hac. now rewrite Hac.
Qed.

Lemma string_leb_trans (s1 s2 s3 : string) :
  String.leb s1 s2 = true -> String.leb s2 s3 = true ->
  String.leb s1 s3 = true.
Proof.
  unfold String.leb.
  destruct (String.compare s1 s2) eqn:H12; try discriminate;
    destruct (String.compare s2 s3) eqn:H23; try discriminate; intros _ _.
  - apply String.compare_eq_iff in H12, H23. subst.
    now rewrite string_compare_refl.
  - apply String.compare_eq_iff in H12. subst. now rewrite H23.
  - apply String.compare_eq_iff in H23. subst. now rewrite H12.
  - now rewrite (string_compare_trans s1 s2 s3 H12 H23).
Qed.

(** Two items with different keys can be inserted in either order. *)
Lemma insert_item_swap {A : Type} (a b : string * A) (l : list (string * A)) :
  fst a <> fst b ->
  insert_item a (insert_item b l) = insert_item b (insert_item a l).
Proof.
  intros Hne.
  assert (String.leb (fst a) (fst b) = true ->
          String.leb (fst b) (fst a) = false) as Hab.
  { intros H. destruct (String.leb (fst b) (fst a)) eqn:H'; [|reflexivity].
    contradiction Hne. now apply String.leb_antisym. }
  assert (String.leb (fst a) (fst b) = false ->
          String.leb (fst b) (fst a) = true) as Hba.
  { intros H. destruct (String.leb_total (fst a) (fst b)); congruence. }
  induction l as [|y l IH]; cbn [insert_item].
  - destruct (String.leb (fst a) (fst b)) eqn:Hle.
    + now rewrite (Hab eq_refl).
    + now rewrite (Hba eq_refl).
  - destruct (String.leb (fst a) (fst y)) eqn:Hay;
      destruct (String.leb (fst b) (fst y)) eqn:Hby; cbn [insert_item].
    + destruct (String.leb (fst a) (fst b)) eqn:Hle.
      * rewrite (Hab eq_refl). cbn [insert_item]. now rewrite Hby.
      * rewrite (Hba eq_refl). cbn [insert_item]. now rewrite Hay.
    + rewrite Hay.
      destruct (String.leb (fst b) (fst a)) eqn:Hle.
      * rewrite (string_leb_trans _ _ _ Hle Hay) in Hby. discriminate.
      * cbn [insert_item]. now rewrite Hby.
    + rewrite Hby.
      destruct (String.leb (fst a) (fst b)) eqn:Hle.
      * rewrite (string_leb_trans _ _ _ Hle Hby) in Hay. discriminate.
      * cbn [insert_item]. now rewrite Hay.
    + rewrite Hay, Hby. now rewrite IH.
Qed.

Lemma sort_items_permutation {A : Type} (l l' : list (string * A)) :
  l ≡ₚ l' -> NoDup (map fst l) -> sort_items l = sort_items l'.
Proof.
  intros Hperm Hnodup. unfold sort_items.
  apply (foldr_permutation eq insert_item []); [|exact Hperm].
  intros j1 a1 j2 a2 acc Hj H1 H2. apply insert_item_swap.
  intros Hkey. apply Hj.
  apply (NoDup_lookup (map fst l) j1 j2 (fst a1)); [exact Hnodup| |].
  - now rewrite list_lookup_fmap, H1.
  - now rewrite list_lookup_fmap, H2, Hkey.
Qed.

Lemma json_dumps_key_order (d d' : list (string * val float)) :
  d ≡ₚ d' -> NoDup (map fst d) ->
  json_dumps json_float (VDict d) = json_dumps json_float (VDict d').
Proof.
  intros Hperm Hnodup. cbn [json_dumps]. do 4 f_equal.
  apply sort_items_permutation.
  - now apply fmap_Permutation.
  - now rewrite map_map.
Qed.

(** X13. The hash of a block does not depend on the order in which
    the five keys of the block dict were inserted: the keys are sorted
    before hashing, so a dict with the same five items in any order
    hashes to the hash of the block. *)
Theorem hash_key_order (b : Block float) (d : list (string * val float)) :
  d ≡ₚ [("index", VInt (index b));
        ("timestamp", VFloat (timestamp b));
        ("transactions", VList (map transaction_dict (transactions b)));
        ("proof", VInt (proof b));
        ("previous_hash", previous_hash b)] ->
  SHA256.hexdigest (encode (json_dumps json_float (VDict d)))
  = hash json_float b.
Proof.
  intros Hperm. unfold hash, block_dict. cbv zeta. do 2 f_equal.
  symmetry. apply json_dumps_key_order; [now symmetry|].
  cbn [map fst]. apply NoDup_ListNoDup.
  repeat (constructor; [cbn [In]; intuition discriminate|]). constructor.
Qed.

End Hashing.

(** ** Under the limit on integer rendering *)

Section UnderLimit.
Import Py Blockchain Trace.
Context {float : Type}.
Variable json_float : float -> string.
Variable node_identifier : string.
Implicit Types (s : t float) (b : Block float) (tx : Transaction float).
Implicit Types (now : float) (v : val float).

Local Abbreviation reward := (Server.reward (float := float) node_identifier).

(** *** Integers beyond the limit *)

Lemma string_of_uint_length (d : Decimal.uint) :
  String.length (NilEmpty.string_of_uint d) = Decimal.nb_digits d.
Proof.
  induction d;
    cbn [NilEmpty.string_of_uint String.length Decimal.nb_digits];
    congruence.
Qed.

Lemma of_lu_bound (d : Decimal.uint) :
  (DecimalPos.Unsigned.of_lu d < 10 ^ N.of_nat (Decimal.nb_digits d))%N.
Proof.
  induction d; cbn [DecimalPos.Unsigned.of_lu Decimal.nb_digits];
    rewrite ?Nat2N.inj_succ, ?N.pow_succ_r'; try lia.
Qed.

Lemma digits_pos (p : positive) :
  Limited.digits (Z.pos p) = Decimal.nb_digits (Pos.to_uint p).
Proof.
  change (Limited.digits (Z.pos p))
    with (String.length (NilZero.string_of_uint (Pos.to_uint p))).
  pose proof (DecimalPos.Unsigned.to_uint_nonnil p) as Hnil.
  unfold NilZero.string_of_uint.
  destruct (Pos.to_uint p) eqn:Hd;
    [congruence | apply string_of_uint_length ..].
Qed.

(** A positive integer is below ten to the number of its digits. *)
Lemma pos_below_digits (p : positive) :
  Z.pos p < 10 ^ Z.of_nat (Limited.digits (Z.pos p)).
Proof.
  rewrite digits_pos.
  pose proof (of_lu_bound (Decimal.rev (Pos.to_uint p))) as Hb.
  rewrite <- DecimalPos.Unsigned.of_uint_alt, DecimalPos.Unsigned.of_to,
    DecimalFacts.nb_digits_rev in Hb.
  apply N2Z.inj_lt in Hb. rewrite N2Z.inj_pow, nat_N_Z in Hb. exact Hb.
Qed.

Lemma renders_bound (n : Z) :
  Limited.renders n = true ->
  Z.abs n < 10 ^ Z.of_nat Limited.int_max_str_digits.
Proof.
  unfold Limited.renders. intros H. apply Nat.leb_le in H.
  assert (10 ^ Z.of_nat (Limited.digits n)
          <= 10 ^ Z.of_nat Limited.int_max_str_digits) as Hle.
  { apply Z.pow_le_mono_r; lia. }
  destruct n as [|p|p]; cbn [Z.abs].
  - apply Z.pow_pos_nonneg; lia.
  - pose proof (pos_below_digits p). lia.
  - pose proof (pos_below_digits p).
    change (Limited.digits (Z.neg p)) with (Limited.digits (Z.pos p)) in Hle.
    lia.
Qed.

(** An integer of absolute value 10^4300 or more does not render. *)
Lemma beyond_limit (n : Z) :
  10 ^ Z.of_nat Limited.int_max_str_digits <= Z.abs n ->
  Limited.renders n = false.
Proof.
  intros Hbig. destruct (Limited.renders n) eqn:H; [|reflexivity].
  apply renders_bound in H.
  contradiction (Z.lt_irrefl _ (Z.lt_le_trans _ _ _ H Hbig)).
Qed.

(** *** Agreement with the code without the limit *)

Lemma valid_proof_renders (r c : Z) :
  Limited.renders r = true -> Limited.renders c = true ->
  Limited.valid_proof r c = Return (valid_proof r c).
Proof.
  intros Hr Hc. unfold Limited.valid_proof, Limited.str, Limited.and_then.
  now rewrite Hr, Hc.
Qed.

Lemma valid_proof_raises (r c : Z) :
  Limited.renders r = false \/ Limited.renders c = false ->
  Limited.valid_proof r c = Raise ValueError.
Proof.
  unfold Limited.valid_proof, Limited.str, Limited.and_then.
  intros [Hr | Hc].
  - now rewrite Hr.
  - rewrite Hc. now destruct (Limited.renders r).
Qed.

Lemma valid_proof_agrees (r c : Z) (verdict : bool) :
  Limited.valid_proof r c = Return verdict -> valid_proof r c = verdict.
Proof.
  destruct (Limited.renders r) eqn:Hr; destruct (Limited.renders c) eqn:Hc;
    try (rewrite valid_proof_raises by auto; discriminate).
  rewrite (valid_proof_renders r c Hr Hc). now intros [= <-].
Qed.

Lemma proof_of_work_loop_agrees (fuel : nat) (r p : Z) (found : option Z) :
  Limited.proof_of_work_loop fuel r p = Return found ->
  proof_of_work_loop fuel r p = found.
Proof.
  revert p. induction fuel as [|fuel IH]; intros p;
    cbn [Limited.proof_of_work_loop proof_of_work_loop].
  - now intros [= <-].
  - destruct (Limited.valid_proof r p) as [[|]|e] eqn:Hp; try discriminate.
    + rewrite (valid_proof_agrees r p true Hp). now intros [= <-].
    + rewrite (valid_proof_agrees r p false Hp). apply IH.
Qed.

Lemma valid_proof_returns_renders (r c : Z) (verdict : bool) :
  Limited.valid_proof r c = Return verdict ->
  Limited.renders r = true /\ Limited.renders c = true.
Proof.
  destruct (Limited.renders r) eqn:Hr; destruct (Limited.renders c) eqn:Hc;
    try (rewrite valid_proof_raises by auto; discriminate).
  auto.
Qed.

Lemma proof_of_work_loop_renders (fuel : nat) (r p pf : Z) :
  Limited.proof_of_work_loop fuel r p = Return (Some pf) ->
  Limited.renders pf = true.
Proof.
  revert p. induction fuel as [|fuel IH]; intros p;
    cbn [Limited.proof_of_work_loop]; [discriminate|].
  destruct (Limited.valid_proof r p) as [[|]|e] eqn:Hp; try discriminate.
  - intros [= <-]. now destruct (valid_proof_returns_renders r p true Hp).
  - apply IH.
Qed.

(** *** The difficulty predicate *)

(** C4, as the code has it under the default limit of CPython 3.11:
    for two integers of at most 4300 digits each, [valid_proof]
    returns, and returns true exactly when the first two characters of
    the 64-character hex digest of SHA-256 over the decimal string of
    [last_proof] followed by the decimal string of [proof] are both
    the character 0. *)
Theorem valid_proof_within_limit (last_proof proof : Z) :
  (Limited.digits last_proof <= Limited.int_max_str_digits)%nat ->
  (Limited.digits proof <= Limited.int_max_str_digits)%nat ->
  let digest :=
    SHA256.hexdigest (encode (str_int last_proof +:+ str_int proof)) in
  String.length digest = 64%nat /\
  exists verdict,
    Limited.valid_proof last_proof proof = Return verdict /\
    (verdict = true
     <-> String.get 0 digest = Some "0"%char /\
         String.get 1 digest = Some "0"%char).
Proof.
  intros Hr Hc digest.
  destruct (valid_proof_two_zeros last_proof proof) as [Hlen Hiff].
  split; [exact Hlen|]. exists (valid_proof last_proof proof). split.
  - apply valid_proof_renders; unfold Limited.renders;
      now apply Nat.leb_le.
  - exact Hiff.
Qed.

(** *** Hashing *)

Lemma transaction_within_limit tx :
  Limited.within_limit (transaction_dict tx) = true
  <-> Limited.within_limit (sender tx) = true /\
      Limited.within_limit (recipient tx) = true /\
      Limited.within_limit (amount tx) = true.
Proof.
  unfold transaction_dict. cbn [Limited.within_limit forallb snd].
  rewrite !andb_true_iff. tauto.
Qed.

Lemma block_within_limit b :
  Limited.within_limit (block_dict b) = true
  <-> Limited.renders (index b) = true /\
      Limited.renders (proof b) = true /\
      Limited.within_limit (previous_hash b) = true /\
      Forall (fun tx => Limited.within_limit (sender tx) = true /\
                        Limited.within_limit (recipient tx) = true /\
                        Limited.within_limit (amount tx) = true)
             (transactions b).
Proof.
  unfold block_dict. cbn [Limited.within_limit forallb snd].
  rewrite !andb_true_iff, forallb_forall, Forall_forall.
  setoid_rewrite <- list_elem_of_In.
  split.
  - intros (Hidx & _ & Htxs & Hpf & Hph & _). repeat split; try assumption.
    all: specialize (Htxs (transaction_dict x));
      apply transaction_within_limit; apply Htxs;
      apply list_elem_of_fmap; eauto.
  - intros (Hidx & Hpf & Hph & Htxs). repeat split; try assumption.
    intros v Hv. apply list_elem_of_fmap in Hv as (tx & -> & Htx).
    apply transaction_within_limit. now apply Htxs.
Qed.

Lemma block_beyond_limit b tx (n : Z) :
  tx ∈ transactions b ->
  amount tx = VInt n ->
  Limited.renders n = false ->
  Limited.within_limit (block_dict b) = false.
Proof.
  intros Hin Hamount Hbig.
  destruct (Limited.within_limit (block_dict b)) eqn:Hok; [|reflexivity].
  apply block_within_limit in Hok as (_ & _ & _ & Htxs).
  rewrite Forall_forall in Htxs.
  destruct (Htxs tx Hin) as (_ & _ & Hn).
  rewrite Hamount in Hn. cbn [Limited.within_limit] in Hn. congruence.
Qed.

(** X12. [hash] under the limit: it raises ValueError exactly when an
    integer of the block (its index, its proof, its previous_hash or a
    value inside a transaction) has more than 4300 digits; otherwise
    it returns a string of exactly 64 characters, each a digit or a
    letter a to f. *)
Theorem hash_digest_or_error b :
  (Limited.within_limit (block_dict b) = true ->
   exists digest,
     Limited.hash json_float b = Return digest /\
     String.length digest = 64%nat /\
     forallb is_lower_hex (String.list_ascii_of_string digest) = true) /\
  (Limited.within_limit (block_dict b) = false ->
   Limited.hash json_float b = Raise ValueError) /\
  (Limited.within_limit (block_dict b) = true
   <-> Limited.renders (index b) = true /\
       Limited.renders (proof b) = true /\
       Limited.within_limit (previous_hash b) = true /\
       Forall (fun tx => Limited.within_limit (sender tx) = true /\
                         Limited.within_limit (recipient tx) = true /\
                         Limited.within_limit (amount tx) = true)
              (transactions b)).
Proof.
  split; [|split; [|apply block_within_limit]].
  - intros Hok. exists (hash json_float b).
    unfold Limited.hash, Limited.json_dumps, Limited.and_then.
    rewrite Hok. split; [reflexivity|]. apply hash_lower_hex.
  - intros Hbad. unfold Limited.hash, Limited.json_dumps, Limited.and_then.
    now rewrite Hbad.
Qed.

Lemma hash_returns b :
  Limited.within_limit (block_dict b) = true ->
  Limited.hash json_float b = Return (hash json_float b).
Proof.
  intros Hok. unfold Limited.hash, Limited.json_dumps, Limited.and_then.
  now rewrite Hok.
Qed.

Lemma hash_agrees b (digest : string) :
  Limited.hash json_float b = Return digest -> hash json_float b = digest.
Proof.
  unfold Limited.hash, Limited.json_dumps, Limited.and_then.
  destruct (Limited.within_limit (block_dict b)); [|discriminate].
  now intros [= <-].
Qed.

(** *** GET /chain *)

(** Whenever the handler answers under the limit, it answers the same
    and leaves the same ledger as without the limit. *)
Lemma full_chain_agrees s answer s' :
  Limited.full_chain s = (Return answer, s') ->
  App.full_chain s = (Return answer, s').
Proof.
  unfold Limited.full_chain, App.full_chain, Limited.jsonify,
    bind, get, ret, lift.
  cbn beta iota. destruct (Limited.within_limit _); [|discriminate].
  now intros [= <- <-].
Qed.

Lemma full_chain_raises s b :
  b ∈ chain s ->
  Limited.within_limit (block_dict b) = false ->
  Limited.full_chain s = (Raise ValueError, s).
Proof.
  intros Hin Hbad.
  unfold Limited.full_chain, Limited.jsonify, bind, get, ret, lift.
  cbn beta iota. cbn [Limited.within_limit forallb snd].
  destruct (forallb Limited.within_limit (map block_dict (chain s))) eqn:Hall;
    [|reflexivity].
  rewrite forallb_forall in Hall.
  rewrite Hall in Hbad; [discriminate|].
  apply list_elem_of_In, list_elem_of_fmap. eauto.
Qed.

(** X11. The read-chain handler under the limit never changes the
    ledger. On a reachable ledger its response holds a non-empty list
    of blocks and a length equal to the number of entries of that
    list, the entry at position [i] having index [i + 1]; the handler
    answers 200 with that response when every integer in it has at
    most 4300 digits, and raises ValueError otherwise. *)
Theorem full_chain_outcomes s :
  reachable s ->
  exists entries,
    let response :=
      VDict [("chain", VList entries);
             ("length", VInt (Z.of_nat (length entries)))] in
    (Limited.within_limit response = true ->
     Limited.full_chain s = (Return (App.Json response, 200), s)) /\
    (Limited.within_limit response = false ->
     Limited.full_chain s = (Raise ValueError, s)) /\
    (0 < length entries)%nat /\
    forall (i : nat) entry,
      entries !! i = Some entry ->
      subscript entry "index" = Return (VInt (Z.of_nat i + 1)).
Proof.
  intros Hs. exists (map block_dict (chain s)). cbv zeta.
  rewrite length_map.
  repeat split.
  - intros Hok. unfold Limited.full_chain, Limited.jsonify, bind, get, ret, lift.
    cbn beta iota. now rewrite Hok.
  - intros Hbad. unfold Limited.full_chain, Limited.jsonify, bind, get, ret, lift.
    cbn beta iota. now rewrite Hbad.
  - destruct (reachable_last s Hs) as (b & Hlast & _).
    destruct (chain s); [discriminate | cbn [length]; lia].
  - intros i entry Hentry. rewrite list_lookup_fmap in Hentry.
    destruct (chain s !! i) as [b|] eqn:Hb; [|discriminate].
    injection Hentry as <-.
    cbn. now rewrite (reachable_indexed s Hs i b Hb).
Qed.

(** *** GET /mine *)

(** X8. The mine handler under the limit, on a ledger whose last block
    is [b]. While the search is running the ledger is untouched, and
    so it is when the search raises. Once the search returns [pf],
    which passes valid_proof against the proof of [b], the reward is
    enqueued; if an integer of [b] has more than 4300 digits, hashing
    [b] raises ValueError and the reward stays pending with no block
    forged. Otherwise the new block is appended, with the chain length
    plus 1 as index, the pending transactions followed by the reward,
    the proof [pf] and the hash of [b], and nothing is pending; the
    answer is 200 with that block, unless an integer of the response
    has more than 4300 digits, in which case ValueError is raised
    after the block was appended. *)
Theorem mine_outcomes fuel now s b :
  last (chain s) = Some b ->
  let enqueued :=
    {| chain := chain s;
       current_transactions := current_transactions s ++ [reward] |} in
  (Limited.proof_of_work fuel (proof b) = Return None ->
   Limited.mine json_float node_identifier fuel now s = (Return None, s)) /\
  (forall e,
     Limited.proof_of_work fuel (proof b) = Raise e ->
     Limited.mine json_float node_identifier fuel now s = (Raise e, s)) /\
  (forall pf,
     Limited.proof_of_work fuel (proof b) = Return (Some pf) ->
     let block := {| index := Z.of_nat (length (chain s)) + 1;
                     timestamp := now;
                     transactions := current_transactions s ++ [reward];
                     proof := pf;
                     previous_hash := VStr (hash json_float b) |} in
     let forged :=
       {| chain := chain s ++ [block]; current_transactions := [] |} in
     let response :=
       VDict [("message", VStr "New Block Forged");
              ("index", VInt (index block));
              ("transactions",
               VList (map transaction_dict (transactions block)));
              ("proof", VInt pf);
              ("previous_hash", VStr (hash json_float b))] in
     valid_proof (proof b) pf = true /\
     Limited.renders pf = true /\
     (Limited.within_limit (block_dict b) = false ->
      Limited.mine json_float node_identifier fuel now s
      = (Raise ValueError, enqueued)) /\
     (Limited.within_limit (block_dict b) = true ->
      Limited.within_limit response = true ->
      Limited.mine json_float node_identifier fuel now s
      = (Return (Some (App.Json response, 200)), forged)) /\
     (Limited.within_limit (block_dict b) = true ->
      Limited.within_limit response = false ->
      Limited.mine json_float node_identifier fuel now s
      = (Raise ValueError, forged))).
Proof.
  intros Hlast enqueued.
  assert (forall found,
            Limited.proof_of_work fuel (proof b) = found ->
            Limited.mine json_float node_identifier fuel now s
            = match found with
              | Raise e => (Raise e, s)
              | Return None => (Return None, s)
              | Return (Some pf) =>
                  match Limited.hash json_float b with
                  | Raise e => (Raise e, enqueued)
                  | Return h =>
                      let block :=
                        {| index := Z.of_nat (length (chain s)) + 1;
                           timestamp := now;
                           transactions := current_transactions s ++ [reward];
                           proof := pf;
                           previous_hash := VStr h |} in
                      let forged :=
                        {| chain := chain s ++ [block];
                           current_transactions := [] |} in
                      match Limited.jsonify
                              (VDict [("message", VStr "New Block Forged");
                                      ("index", VInt (index block));
                                      ("transactions",
                                       VList (map transaction_dict
                                                  (transactions block)));
                                      ("proof", VInt pf);
                                      ("previous_hash", VStr h)]) with
                      | Return answer => (Return (Some (answer, 200)), forged)
                      | Raise e => (Raise e, forged)
                      end
                  end
              end) as Hmine.
  { intros found Hfound.
    unfold Limited.mine, last_block, bind, get, ret, lift. cbn beta iota.
    rewrite Hlast. cbn beta iota. rewrite Hfound.
    destruct found as [[pf|]|e]; try reflexivity.
    rewrite (create_transaction_eq _ _ _ s b Hlast).
    destruct (Limited.hash json_float b) as [h|e]; [|reflexivity].
    rewrite create_block_eq. cbv zeta.
    cbn [chain current_transactions index transactions proof previous_hash].
    now destruct (Limited.jsonify _). }
  split; [|split].
  - intros Hrun. exact (Hmine _ Hrun).
  - intros e Hraise. exact (Hmine _ Hraise).
  - intros pf Hfound block forged response.
    pose proof (Hmine _ Hfound) as Heq. cbv beta iota in Heq.
    assert (valid_proof (proof b) pf = true) as Hvalid.
    { apply (proof_of_work_loop_sound fuel (proof b) 0 pf).
      exact (proof_of_work_loop_agrees fuel (proof b) 0 (Some pf) Hfound). }
    split; [exact Hvalid|]. split; [|split; [|split]].
    + exact (proof_of_work_loop_renders fuel (proof b) 0 pf Hfound).
    + intros Hbad. rewrite Heq.
      unfold Limited.hash, Limited.json_dumps, Limited.and_then.
      now rewrite Hbad.
    + intros Hok Hresp. rewrite Heq, (hash_returns b Hok). cbv zeta.
      unfold Limited.jsonify. fold block. fold response. now rewrite Hresp.
    + intros Hok Hresp. rewrite Heq, (hash_returns b Hok). cbv zeta.
      unfold Limited.jsonify. fold block. fold response. now rewrite Hresp.
Qed.

(** Whenever the handler answers under the limit, it answers the same
    and leaves the same ledger as without the limit. *)
Lemma mine_agrees fuel now s answer s' :
  Limited.mine json_float node_identifier fuel now s = (Return answer, s') ->
  App.mine json_float node_identifier fuel now s = (Return answer, s').
Proof.
  unfold Limited.mine, App.mine, last_block, bind, get, ret, lift.
  cbn beta iota.
  destruct (last (chain s)) as [b|] eqn:Hlast; [|discriminate].
  cbn beta iota.
  destruct (Limited.proof_of_work fuel (proof b)) as [found|e] eqn:Hfound;
    [|discriminate].
  unfold proof_of_work.
  rewrite (proof_of_work_loop_agrees fuel (proof b) 0 found Hfound).
  destruct found as [pf|]; [|exact (fun H => H)].
  rewrite (create_transaction_eq _ _ _ s b Hlast).
  destruct (Limited.hash json_float b) as [h|e] eqn:Hhash; [|discriminate].
  rewrite <- (hash_agrees b h Hhash).
  rewrite create_block_eq. cbv zeta. unfold Limited.jsonify.
  destruct (Limited.within_limit _); [|discriminate].
  exact (fun H => H).
Qed.

End UnderLimit.

(** ** The further properties on concrete ledgers *)

Section CasesChecked.
Import Py Blockchain Trace Scenario Cases.

Local Abbreviation busy :=
  (foldl (Server.serve whole_seconds "node") fresh busy_requests).

Lemma last_block_behaviour_witness :
  reachable fresh /\
  exists b, last_block fresh = (Return b, fresh) /\
            index b = Z.of_nat (length (chain fresh)) /\
            chain fresh !! pred (length (chain fresh)) = Some b.
Proof.
  split; [exact fresh_reachable|].
  exact (proj2 (proj2 (last_block_behaviour fresh)) fresh_reachable).
Defined.

Lemma create_transaction_index_kept_witness :
  reachable fresh /\
  exists idx s1,
    create_transaction (VStr "a") (VStr "b") (VInt 5) fresh
    = (Return idx, s1) /\
    forall (txs : list (Transaction Z)) now pf ph,
      exists b s2,
        create_block now pf ph (run s1 (map enqueue txs)) = (Return b, s2) /\
        index b = idx /\
        a_to_b ∈ transactions b /\
        chain s2 !! Z.to_nat (idx - 1) = Some b.
Proof.
  split; [exact fresh_reachable|].
  exact (create_transaction_index_kept (VStr "a") (VStr "b") (VInt 5)
           fresh fresh_reachable).
Defined.


Lemma a_to_b_body_complete :
  complete a_to_b_body (VStr "a") (VStr "b") (VInt 5).
Proof. eexists. repeat split. Defined.

Lemma submit_accepted_witness :
  reachable fresh /\
  complete a_to_b_body (VStr "a") (VStr "b") (VInt 5) /\
  App.create_transaction a_to_b_body fresh
  = (Return (App.Json
               (VDict [("message",
                        VStr "Transaction will be added to Block 2")]), 201),
     {| chain := [genesis]; current_transactions := [a_to_b] |}).
Proof.
  split; [exact fresh_reachable|]. split; [exact a_to_b_body_complete|].
  exact (submit_accepted a_to_b_body (VStr "a") (VStr "b") (VInt 5) fresh
           fresh_reachable a_to_b_body_complete).
Defined.

Lemma submit_outcomes_witness :
  reachable fresh /\
  ((exists sd rc am body,
      complete names_only sd rc am /\
      App.create_transaction names_only fresh
      = (Return (body, 201), step fresh (Enqueue sd rc am)))
   \/ App.create_transaction names_only fresh
      = (Return (App.Text "Missing values", 400), fresh)
   \/ (App.create_transaction names_only fresh = (Raise TypeError, fresh)
       /\ forall d, names_only <> VDict d)).
Proof.
  split; [exact fresh_reachable|].
  exact (submit_outcomes names_only fresh fresh_reachable).
Defined.

(** A list of the three names passes the field check and then fails
    at the first subscript. *)
Example submit_names_only :
  App.create_transaction names_only fresh = (Raise TypeError, fresh).
Proof. reflexivity. Qed.

Lemma busy_served : Server.served whole_seconds "node" busy.
Proof. exists 1700000000, busy_requests. exact eq_refl. Defined.

Lemma served_chain_valid_witness :
  Server.served whole_seconds "node" busy /\
  forall (i : nat) b0 b1,
    chain busy !! i = Some b0 -> chain busy !! S i = Some b1 ->
    previous_hash b1 = VStr (hash whole_seconds b0) /\
    valid_proof (proof b0) (proof b1) = true /\
    index b1 = index b0 + 1.
Proof.
  split; [exact busy_served|].
  exact (served_chain_valid whole_seconds "node" busy busy_served).
Defined.

Lemma served_rewards_witness :
  Server.served whole_seconds "node" busy /\
  (exists b0, chain busy !! 0%nat = Some b0 /\ index b0 = 1 /\
              transactions b0 = [] /\ proof b0 = 100 /\
              previous_hash b0 = VInt 1) /\
  (forall (i : nat) b, chain busy !! S i = Some b ->
                       last (transactions b) = Some (Server.reward "node")).
Proof.
  split; [exact busy_served|].
  exact (served_rewards whole_seconds "node" busy busy_served).
Defined.

Lemma hash_key_order_witness :
  genesis_reversed
  ≡ₚ [("index", VInt (index genesis));
      ("timestamp", VFloat (timestamp genesis));
      ("transactions", VList (map transaction_dict (transactions genesis)));
      ("proof", VInt (proof genesis));
      ("previous_hash", previous_hash genesis)] /\
  SHA256.hexdigest (encode (json_dumps whole_seconds (VDict genesis_reversed)))
  = hash whole_seconds genesis.
Proof.
  assert (genesis_reversed
          ≡ₚ [("index", VInt (index genesis));
              ("timestamp", VFloat (timestamp genesis));
              ("transactions",
               VList (map transaction_dict (transactions genesis)));
              ("proof", VInt (proof genesis));
              ("previous_hash", previous_hash genesis)]) as Hperm
    by apply reverse_Permutation.
  split; [exact Hperm|].
  exact (hash_key_order whole_seconds genesis genesis_reversed Hperm).
Defined.

(** *** Under the limit *)

Lemma huge_does_not_render : Limited.renders LimitCases.huge = false.
Proof.
  apply beyond_limit. unfold LimitCases.huge.
  change (Z.of_nat Limited.int_max_str_digits) with 4300.
  rewrite Z.abs_eq; [apply Z.le_refl|].
  apply Z.pow_nonneg. lia.
Qed.

(** C4, as the claim has it, fails under the default limit: for a
    reference of 4301 digits [valid_proof] returns no verdict, it
    raises ValueError. *)
Lemma valid_proof_limit_counterexample :
  ~ (forall last_proof proof : Z,
       let digest :=
         SHA256.hexdigest (encode (str_int last_proof +:+ str_int proof)) in
       exists verdict,
         Limited.valid_proof last_proof proof = Return verdict /\
         (verdict = true
          <-> String.get 0 digest = Some "0"%char /\
              String.get 1 digest = Some "0"%char)).
Proof.
  intros Hclaim. destruct (Hclaim LimitCases.huge 934) as (verdict & Hret & _).
  rewrite valid_proof_raises in Hret; [discriminate|].
  left. exact huge_does_not_render.
Qed.

Lemma valid_proof_within_limit_witness :
  (Limited.digits 100 <= Limited.int_max_str_digits)%nat /\
  (Limited.digits 226 <= Limited.int_max_str_digits)%nat /\
  String.length (SHA256.hexdigest (encode (str_int 100 +:+ str_int 226)))
  = 64%nat /\
  exists verdict,
    Limited.valid_proof 100 226 = Return verdict /\
    (verdict = true
     <-> String.get 0 (SHA256.hexdigest (encode (str_int 100 +:+ str_int 226)))
         = Some "0"%char /\
         String.get 1 (SHA256.hexdigest (encode (str_int 100 +:+ str_int 226)))
         = Some "0"%char).
Proof.
  assert (Limited.digits 100 <= Limited.int_max_str_digits)%nat as H100
    by (apply Nat.leb_le; vm_compute; reflexivity).
  assert (Limited.digits 226 <= Limited.int_max_str_digits)%nat as H226
    by (apply Nat.leb_le; vm_compute; reflexivity).
  split; [exact H100|]. split; [exact H226|].
  exact (valid_proof_within_limit 100 226 H100 H226).
Defined.

Lemma genesis_within_limit :
  Limited.within_limit (block_dict genesis) = true.
Proof. vm_compute. reflexivity. Qed.

Lemma hash_digest_or_error_witness :
  Limited.within_limit (block_dict genesis) = true /\
  exists digest,
    Limited.hash whole_seconds genesis = Return digest /\
    String.length digest = 64%nat /\
    forallb is_lower_hex (String.list_ascii_of_string digest) = true.
Proof.
  split; [exact genesis_within_limit|].
  exact (proj1 (hash_digest_or_error whole_seconds genesis)
               genesis_within_limit).
Defined.

Lemma burdened_last_beyond_limit :
  Limited.within_limit (block_dict LimitCases.burdened_last) = false.
Proof.
  apply (block_beyond_limit LimitCases.burdened_last
           {| sender := VStr "a"; recipient := VStr "b";
              amount := VInt LimitCases.huge |} LimitCases.huge).
  - apply list_elem_of_here.
  - reflexivity.
  - exact huge_does_not_render.
Qed.

(** A block holding a transfer of 10^4300 has no hash. *)
Example hash_burdened_raises :
  Limited.hash whole_seconds LimitCases.burdened_last = Raise ValueError.
Proof.
  exact (proj1 (proj2 (hash_digest_or_error whole_seconds
                         LimitCases.burdened_last))
               burdened_last_beyond_limit).
Qed.

Lemma burdened_reachable : reachable LimitCases.burdened.
Proof.
  exists 1700000000,
    [LimitCases.huge_transfer; Commit 1700000003 265 (VStr "x")].
  reflexivity.
Defined.

(** Once that block is in the chain, reading the chain raises. *)
Example full_chain_burdened_raises :
  Limited.full_chain LimitCases.burdened
  = (Raise ValueError, LimitCases.burdened).
Proof.
  apply (full_chain_raises LimitCases.burdened LimitCases.burdened_last).
  - apply list_elem_of_further, list_elem_of_here.
  - exact burdened_last_beyond_limit.
Qed.

Lemma full_chain_outcomes_witness :
  reachable unlinked /\
  exists entries,
    let response :=
      VDict [("chain", VList entries);
             ("length", VInt (Z.of_nat (length entries)))] in
    (Limited.within_limit response = true ->
     Limited.full_chain unlinked = (Return (App.Json response, 200), unlinked))
    /\ (Limited.within_limit response = false ->
        Limited.full_chain unlinked = (Raise ValueError, unlinked))
    /\ (0 < length entries)%nat
    /\ forall (i : nat) entry,
         entries !! i = Some entry ->
         subscript entry "index" = Return (VInt (Z.of_nat i + 1)).
Proof.
  split; [exact unlinked_reachable|].
  exact (full_chain_outcomes unlinked unlinked_reachable).
Defined.

Lemma quick_search : Limited.proof_of_work 1 (proof quick_last) = Return (Some 0).
Proof. vm_compute. reflexivity. Qed.

Lemma quick_last_within_limit :
  Limited.within_limit (block_dict quick_last) = true.
Proof. vm_compute. reflexivity. Qed.

Lemma mine_outcomes_witness :
  last (chain quick) = Some quick_last /\
  Limited.proof_of_work 1 (proof quick_last) = Return (Some 0) /\
  valid_proof (proof quick_last) 0 = true /\
  Limited.mine whole_seconds "node" 1 1700000002 quick
  = (Return
       (Some (App.Json
                (VDict [("message", VStr "New Block Forged");
                        ("index", VInt 3);
                        ("transactions",
                         VList [transaction_dict (Server.reward "node")]);
                        ("proof", VInt 0);
                        ("previous_hash",
                         VStr (hash whole_seconds quick_last))]), 200)),
     {| chain := chain quick ++ [quick_forged]; current_transactions := [] |}).
Proof.
  assert (last (chain quick) = Some quick_last) as Hlast by reflexivity.
  split; [exact Hlast|]. split; [exact quick_search|].
  destruct (proj2 (proj2 (mine_outcomes whole_seconds "node" 1 1700000002
                            quick quick_last Hlast)) 0 quick_search)
    as (Hvalid & _ & _ & Hforged & _).
  split; [exact Hvalid|].
  apply (Hforged quick_last_within_limit). vm_compute. reflexivity.
Defined.

(** The mine handler on the ledger whose last block holds the transfer
    of 10^4300: the search returns, the reward is enqueued, hashing the
    last block raises, and no block is forged. *)
Example mine_burdened_raises :
  Limited.mine whole_seconds "node" 1 1700000004 LimitCases.burdened
  = (Raise ValueError,
     {| chain := chain LimitCases.burdened;
        current_transactions := [Server.reward "node"] |}).
Proof.
  assert (last (chain LimitCases.burdened) = Some LimitCases.burdened_last)
    as Hlast by reflexivity.
  destruct (proj2 (proj2 (mine_outcomes whole_seconds "node" 1 1700000004
                            LimitCases.burdened LimitCases.burdened_last
                            Hlast)) 0 quick_search)
    as (_ & _ & Hraise & _).
  exact (Hraise burdened_last_beyond_limit).
Qed.

End CasesChecked.
